(** * InstagramDMAutomation: the server's sanitizer and job loop

    A shallow embedding of the Express server (message sanitizer, proxy
    rotation, background dispatch loop, HTTP surface) and of the Stop
    button of the React client, with the properties stated about them.

    Conventions.
    - A JavaScript string is a list of UTF-16 code units ([cu], an [N]).
    - JavaScript numbers that hold counters and epoch milliseconds are [Z];
      they stay far below 2^53, where the double arithmetic is exact.
      The samples of [Math.random()] and their products are doubles, with
      the operations of [SpecFloat] at precision 53.
    - [undefined] in an optional field is [None]. *)

From Stdlib Require Import List NArith ZArith Bool Lia.
From Stdlib Require String Ascii.
From Stdlib Require DecimalN SpecFloat.
Import ListNotations.
Import String.StringSyntax.
Delimit Scope string_scope with string.

(* ================================================================== *)
(** ** JavaScript strings *)
(* ================================================================== *)

Module JS.

Local Open Scope N_scope.

Abbreviation cu := N (only parsing).
Abbreviation str := (list N) (only parsing).

(** A literal of the source, written as a Rocq string (ASCII only). *)
Definition js (s : String.string) : str :=
  List.map Ascii.N_of_ascii (String.list_ascii_of_string s).
Arguments js s%_string.

Fixpoint str_eqb (a b : str) : bool :=
  match a, b with
  | [], [] => true
  | x :: a', y :: b' => N.eqb x y && str_eqb a' b'
  | _, _ => false
  end.

(** Truthiness of a string: only the empty string is falsy. *)
Definition truthy (s : str) : bool :=
  match s with [] => false | _ :: _ => true end.

(** [a || b] on strings. *)
Definition str_or (a b : str) : str := if truthy a then a else b.

Definition LF : cu := 10%N.
Definition SP : cu := 32%N.

(** WhiteSpace and LineTerminator of ECMAScript: the code units removed by
    [String.prototype.trim] and matched by the class escape [\s]. *)
Definition is_space (c : cu) : bool :=
  ((9 <=? c) && (c <=? 13))          (* TAB LF VT FF CR *)
  || (c =? 32) || (c =? 160)         (* SP NBSP *)
  || (c =? 5760)                     (* U+1680 *)
  || ((8192 <=? c) && (c <=? 8202))  (* U+2000 .. U+200A *)
  || (c =? 8232) || (c =? 8233)      (* LS PS *)
  || (c =? 8239) || (c =? 8287)      (* U+202F U+205F *)
  || (c =? 12288) || (c =? 65279).   (* U+3000 U+FEFF *)

Fixpoint trimStart (s : str) : str :=
  match s with
  | c :: t => if is_space c then trimStart t else s
  | [] => []
  end.

Definition trimEnd (s : str) : str := rev (trimStart (rev s)).

Definition trim (s : str) : str := trimEnd (trimStart s).

(** The boolean [String.prototype.startsWith] and [includes]. *)
Fixpoint startsWith (w s : str) : bool :=
  match w, s with
  | [], _ => true
  | x :: w', y :: s' => N.eqb x y && startsWith w' s'
  | _ :: _, [] => false
  end.

Fixpoint includes (w s : str) : bool :=
  startsWith w s || match s with [] => false | _ :: t => includes w t end.

End JS.

(* ================================================================== *)
(** ** Regular expressions of the sanitizer *)
(* ================================================================== *)

(** The fragment of ECMAScript regular expressions that [sanitizeMessage]
    uses: classes, concatenation, ordered alternation and a greedy
    quantifier [{n,}] over a class.  There are no capture groups. *)
Module Regex.
Import JS.

Inductive regex : Type :=
| Empty : regex                                   (* matches the empty string *)
| Chars : (cu -> bool) -> regex                   (* one code unit of a class *)
| Cat : regex -> regex -> regex                   (* r1 r2 *)
| Or : regex -> regex -> regex                    (* r1 | r2, r1 tried first *)
| AtLeast : nat -> (cu -> bool) -> regex.         (* class{n,}, greedy *)

(** Greedy [class*]: the numbers of code units it can consume at the head
    of [s], in the order the backtracking matcher tries them. *)
Fixpoint star (p : cu -> bool) (s : str) : list nat :=
  match s with
  | c :: t => if p c then List.map S (star p t) ++ [0%nat] else [0%nat]
  | [] => [0%nat]
  end.

Fixpoint at_least (n : nat) (p : cu -> bool) (s : str) : list nat :=
  match n with
  | O => star p s
  | S k =>
      match s with
      | c :: t => if p c then List.map S (at_least k p t) else []
      | [] => []
      end
  end.

(** All the ways [r] matches a prefix of [s], as lengths, in the priority
    order of the backtracking matcher; the head is the match the engine
    reports. *)
Fixpoint matches (r : regex) (s : str) : list nat :=
  match r with
  | Empty => [0%nat]
  | Chars p =>
      match s with
      | c :: _ => if p c then [1%nat] else []
      | [] => []
      end
  | Cat r1 r2 =>
      flat_map
        (fun n1 => List.map (fun n2 => (n1 + n2)%nat) (matches r2 (skipn n1 s)))
        (matches r1 s)
  | Or r1 r2 => matches r1 s ++ matches r2 s
  | AtLeast n p => at_least n p s
  end.

Definition first_match (r : regex) (s : str) : option nat :=
  match matches r s with
  | n :: _ => Some n
  | [] => None
  end.

(** Pattern characters. *)
Definition lit (c : cu) : regex := Chars (N.eqb c).

Fixpoint word (w : str) : regex :=
  match w with
  | [] => Empty
  | c :: t => Cat (lit c) (word t)
  end.

(** A letter under the [i] flag (no [u] flag): the code unit and the input
    are compared after Canonicalize, which upper-cases one code unit and
    never maps a code unit above 127 to an ASCII one; so an ASCII letter
    matches exactly its two cases. *)
Definition fold_case (c : cu) : cu :=
  if (97 <=? c)%N && (c <=? 122)%N then (c - 32)%N else c.

Definition lit_i (c : cu) : regex :=
  Chars (fun x => (x <? 128)%N && N.eqb (fold_case x) (fold_case c)).

Fixpoint word_i (w : str) : regex :=
  match w with
  | [] => Empty
  | c :: t => Cat (lit_i c) (word_i t)
  end.

Definition one_of (cs : str) : regex :=
  Chars (fun x => existsb (N.eqb x) cs).

Fixpoint alt (rs : list regex) (last : regex) : regex :=
  match rs with
  | [] => last
  | r :: rs' => Or r (alt rs' last)
  end.

(** GetSubstitution for a pattern without capture groups: in the
    replacement text, [$$] is a dollar sign, [$&] the matched text, [$`]
    the text before the match and [$'] the text after it; a dollar sign
    followed by anything else stands for itself. *)
Fixpoint getSubstitution (matched before after template : str) : str :=
  match template with
  | [] => []
  | c :: t =>
      if (c =? 36)%N then
        match t with
        | d :: t' =>
            if (d =? 36)%N then 36%N :: getSubstitution matched before after t'
            else if (d =? 38)%N then matched ++ getSubstitution matched before after t'
            else if (d =? 96)%N then before ++ getSubstitution matched before after t'
            else if (d =? 39)%N then after ++ getSubstitution matched before after t'
            else c :: getSubstitution matched before after t
        | [] => [c]
        end
      else c :: getSubstitution matched before after t
  end.

(** [str.replace(/r/g, template)].  [before] is the part of the subject
    already scanned and [skip] the number of code units of the current
    match still to pass over.  After an empty match the engine copies one
    code unit and moves on. *)
Fixpoint replace_from (r : regex) (template : str)
         (before : str) (skip : nat) (s : str) : str :=
  match skip with
  | S k =>
      match s with
      | c :: t => replace_from r template (before ++ [c]) k t
      | [] => []
      end
  | O =>
      match first_match r s with
      | Some n =>
          getSubstitution (firstn n s) before (skipn n s) template ++
          match s with
          | c :: t =>
              match n with
              | O => c :: replace_from r template (before ++ [c]) 0 t
              | S k => replace_from r template (before ++ [c]) k t
              end
          | [] => []
          end
      | None =>
          match s with
          | c :: t => c :: replace_from r template (before ++ [c]) 0 t
          | [] => []
          end
      end
  end.

Definition replace (r : regex) (template : str) (s : str) : str :=
  replace_from r template [] 0 s.

End Regex.

(* ================================================================== *)
(** ** sanitizeMessage *)
(* ================================================================== *)

Module Sanitizer.
Import JS Regex.
Local Open Scope N_scope.

(** [/\[(?:Name|name|Your Name\/Brand|your name|brand|Brand)\]/g] *)
Definition re_square : regex :=
  Cat (lit 91)
      (Cat (alt [word (js "Name"); word (js "name");
                 word (js "Your Name/Brand"); word (js "your name");
                 word (js "brand")]
                (word (js "Brand")))
           (lit 93)).

(** [/\{(?:name|Name)\}/g] *)
Definition re_brace : regex :=
  Cat (lit 123) (Cat (Or (word (js "name")) (word (js "Name"))) (lit 125)).

(** [/<\s*name\s*>/gi] *)
Definition re_angle : regex :=
  Cat (lit_i 60)
      (Cat (AtLeast 0%nat is_space)
           (Cat (word_i (js "name"))
                (Cat (AtLeast 0%nat is_space) (lit_i 62)))).

(** [/[\*`_>#]/g] *)
Definition re_markdown : regex := one_of (js "*`_>#").

(** [/[\[\]<>]/g] *)
Definition re_brackets : regex := one_of (js "[]<>").

(** [/\s+\n/g], [/\n{3,}/g], [/\s{2,}/g] *)
Definition re_space_before_break : regex :=
  Cat (AtLeast 1%nat is_space) (lit LF).
Definition re_breaks3 : regex := AtLeast 3%nat (N.eqb LF).
Definition re_spaces2 : regex := AtLeast 2%nat is_space.

(** Lines 32-35: the three placeholder replacements. *)
Definition replacePlaceholders (fallback : str) (out : str) : str :=
  replace re_angle fallback
    (replace re_brace fallback
       (replace re_square fallback out)).

(** Line 41. *)
Definition collapseWhitespace (out : str) : str :=
  replace re_spaces2 [SP]
    (replace re_breaks3 [LF; LF]
       (replace re_space_before_break [LF] out)).

Definition sanitizeMessage (msg name username : str) : str :=
  let out := trim msg in
  let fallback := str_or name username in
  let out := replacePlaceholders fallback out in
  let out := replace re_markdown [] out in
  let out := replace re_brackets [] out in
  let out := collapseWhitespace out in
  let out := trim out in
  out.

End Sanitizer.

(* ================================================================== *)
(** ** Job state and the background loop *)
(* ================================================================== *)

Module Job.
Import JS Sanitizer.
Local Open Scope Z_scope.

(** [interface JobState] (lines 13-26). *)
Record JobState : Type := mkJobState {
  running : bool;
  igUser : option str;
  total : Z;
  index : Z;
  sent : Z;
  failed : Z;
  currentUsername : option str;
  currentProxy : option str;
  userAgent : option str;
  nextSendAt : option Z;
  lastError : option str;
  lastStep : option str
}.

(** [let state] (lines 47-53). *)
Definition idle : JobState :=
  mkJobState false None 0 0 0 0 None None None None None None.

Definition set_running (v : bool) (s : JobState) : JobState :=
  mkJobState v (igUser s) (total s) (index s) (sent s) (failed s)
    (currentUsername s) (currentProxy s) (userAgent s) (nextSendAt s)
    (lastError s) (lastStep s).
Definition set_index (v : Z) (s : JobState) : JobState :=
  mkJobState (running s) (igUser s) (total s) v (sent s) (failed s)
    (currentUsername s) (currentProxy s) (userAgent s) (nextSendAt s)
    (lastError s) (lastStep s).
Definition set_sent (v : Z) (s : JobState) : JobState :=
  mkJobState (running s) (igUser s) (total s) (index s) v (failed s)
    (currentUsername s) (currentProxy s) (userAgent s) (nextSendAt s)
    (lastError s) (lastStep s).
Definition set_failed (v : Z) (s : JobState) : JobState :=
  mkJobState (running s) (igUser s) (total s) (index s) (sent s) v
    (currentUsername s) (currentProxy s) (userAgent s) (nextSendAt s)
    (lastError s) (lastStep s).
Definition set_currentUsername (v : option str) (s : JobState) : JobState :=
  mkJobState (running s) (igUser s) (total s) (index s) (sent s) (failed s)
    v (currentProxy s) (userAgent s) (nextSendAt s)
    (lastError s) (lastStep s).
Definition set_currentProxy (v : option str) (s : JobState) : JobState :=
  mkJobState (running s) (igUser s) (total s) (index s) (sent s) (failed s)
    (currentUsername s) v (userAgent s) (nextSendAt s)
    (lastError s) (lastStep s).
Definition set_nextSendAt (v : option Z) (s : JobState) : JobState :=
  mkJobState (running s) (igUser s) (total s) (index s) (sent s) (failed s)
    (currentUsername s) (currentProxy s) (userAgent s) v
    (lastError s) (lastStep s).
Definition set_lastError (v : option str) (s : JobState) : JobState :=
  mkJobState (running s) (igUser s) (total s) (index s) (sent s) (failed s)
    (currentUsername s) (currentProxy s) (userAgent s) (nextSendAt s)
    v (lastStep s).
Definition set_lastStep (v : option str) (s : JobState) : JobState :=
  mkJobState (running s) (igUser s) (total s) (index s) (sent s) (failed s)
    (currentUsername s) (currentProxy s) (userAgent s) (nextSendAt s)
    (lastError s) v.

(** The object literal of lines 145-157. *)
Definition fresh (igUsername : str) (usernames : list str)
           (userAgent : option str) : JobState :=
  mkJobState true (Some igUsername) (Z.of_nat (length usernames)) 0 0 0
    None None userAgent None None (Some (js "login_success")).

(** *** What the awaited calls deliver *)

(** A thrown value: an [Error] with its message, or anything else with
    its [String(err)]. *)
Inductive thrown : Type :=
| ErrorObject : str -> thrown
| OtherValue : str -> thrown.

(** [err instanceof Error ? err.message : String(err)] (line 199). *)
Definition errorText (e : thrown) : str :=
  match e with ErrorObject message => message | OtherValue text => text end.

Inductive settled (A : Type) : Type :=
| Fulfilled : A -> settled A
| Rejected : thrown -> settled A.
Arguments Fulfilled {A} _.
Arguments Rejected {A} _.

(** The user found by [ig.user.searchExact]. *)
Record user : Type := mkUser { pk : Z; full_name : option str }.

(** The HTTP exchange inside [openrouterGenerate]: the fetch or the JSON
    parse throws, or a response arrives with its [ok] flag, its status
    printed in decimal and [choices[0].message.content]. *)
Inductive exchange : Type :=
| Threw : thrown -> exchange
| Response : bool -> str -> option str -> exchange.

(** [openrouterGenerate] (lines 78-101), after the exchange. *)
Definition openrouterGenerate (x : exchange) : settled str :=
  match x with
  | Threw e => Rejected e
  | Response ok status content =>
      if negb ok then
        Rejected (ErrorObject (js "OpenRouter failed with status " ++ status))
      else
        match content with
        | Some c =>
            if truthy c then Fulfilled c
            else Rejected (ErrorObject (js "OpenRouter returned no content"))
        | None => Rejected (ErrorObject (js "OpenRouter returned no content"))
        end
  end.

(** What the loop reads from its surroundings when it runs on: the clock
    at line 208 and at the test of line 211, and the three random draws
    ([Math.floor(Math.random() * (max - min + 1))] of [jitterSeconds] and
    of [captchaExtraDelaySeconds], and [Math.random() < 0.2]). *)
Record ambient : Type := mkAmbient {
  clock : Z;
  clock_check : Z;
  jitter_draw : Z;
  captcha_roll : bool;
  captcha_draw : Z
}.

Definition jitterSeconds (draw : Z) : Z := draw + 180.
Definition captchaExtraDelaySeconds (draw : Z) : Z := draw + 60.

(** *** The background task *)

(** Where the task is suspended. *)
Inductive point : Type :=
| AwaitResolve : nat -> point                 (* line 183, recipient i *)
| AwaitGenerate : nat -> Z -> str -> point    (* line 188: i, pk, name *)
| AwaitSend : nat -> Z -> str -> point        (* line 193: i, pk, message *)
| AwaitDelay : nat -> Z -> point              (* line 212: i, target *)
| Finished : point.

(** The variables the task closes over, the session's proxy and the
    suspension point. *)
Record task : Type := mkTask {
  usernames : list str;
  proxyList : list str;
  proxyIndex : nat;
  proxyUrl : option str;
  pc : point
}.

Definition set_pc (p : point) (t : task) : task :=
  mkTask (usernames t) (proxyList t) (proxyIndex t) (proxyUrl t) p.

(** The [finally] block (lines 216-220). *)
Definition finalize (t : task) (s : JobState) : task * JobState :=
  (set_pc Finished t,
   set_nextSendAt None (set_currentUsername None (set_running false s))).

(** Round-robin proxy rotation (lines 173-181). *)
Definition rotate (t : task) (s : JobState) : task * JobState :=
  if (0 <? length (proxyList t))%nat then
    let current :=
      nth_error (proxyList t) (proxyIndex t mod length (proxyList t)) in
    (mkTask (usernames t) (proxyList t) (S (proxyIndex t)) current (pc t),
     set_currentProxy current s)
  else
    (mkTask (usernames t) (proxyList t) (proxyIndex t) None (pc t),
     set_currentProxy None s).

(** The head of the [for] loop up to the first await (lines 165-183). *)
Definition loop_top (i : nat) (t : task) (s : JobState) : task * JobState :=
  if (i <? length (usernames t))%nat then
    if negb (running s) then finalize t s
    else
      let s := set_index (Z.of_nat i) s in
      let s := set_currentUsername (nth_error (usernames t) i) s in
      let (t, s) := rotate t s in
      let s := set_lastStep (Some (js "resolve_user_pk")) s in
      (set_pc (AwaitResolve i) t, s)
  else finalize t s.

(** The countdown loop (lines 211-213), then the next turn of the [for]. *)
Definition countdown (i : nat) (target now : Z) (t : task) (s : JobState)
  : task * JobState :=
  if (now <? target) && running s then (set_pc (AwaitDelay i target) t, s)
  else loop_top (S i) t s.

(** Pacing after a dispatch (lines 202-214). *)
Definition pace (i : nat) (a : ambient) (t : task) (s : JobState)
  : task * JobState :=
  if Z.of_nat i <? Z.of_nat (length (usernames t)) - 1 then
    let base := 3600 in
    let jitter := jitterSeconds (jitter_draw a) in
    let captchaExtra :=
      if captcha_roll a then captchaExtraDelaySeconds (captcha_draw a)
      else 0 in
    let waitSec := base + jitter + captchaExtra in
    let target := clock a + waitSec * 1000 in
    let s := set_nextSendAt (Some target) s in
    countdown i target (clock_check a) t s
  else loop_top (S i) t s.

(** Lines 195-196 and the [catch] of lines 197-200. *)
Definition succeed (i : nat) (a : ambient) (t : task) (s : JobState)
  : task * JobState :=
  pace i a t (set_lastError None (set_sent (sent s + 1) s)).

Definition fail (e : thrown) (i : nat) (a : ambient) (t : task) (s : JobState)
  : task * JobState :=
  pace i a t (set_lastError (Some (errorText e)) (set_failed (failed s + 1) s)).

(** The awaited call that settles. *)
Inductive event : Type :=
| Resolved : settled user -> event       (* ig.user.searchExact *)
| Generated : exchange -> event          (* openrouterGenerate *)
| Broadcast : settled unit -> event      (* thread.broadcastText *)
| Ticked : event.                        (* delay(1000) *)

(** [x || ''] on an optional string. *)
Definition orEmpty (o : option str) : str :=
  match o with Some x => str_or x [] | None => [] end.

(** The task runs from one await to the next.  An event that does not
    answer the pending await leaves everything as it is. *)
Definition resume (ev : event) (a : ambient) (t : task) (s : JobState)
  : task * JobState :=
  match pc t, ev with
  | AwaitResolve i, Resolved (Fulfilled u) =>
      let s := set_lastStep (Some (js "generate_message")) s in
      (set_pc (AwaitGenerate i (pk u) (orEmpty (full_name u))) t, s)
  | AwaitResolve i, Resolved (Rejected e) => fail e i a t s
  | AwaitGenerate i pk name, Generated x =>
      match openrouterGenerate x with
      | Fulfilled messageRaw =>
          let uname := nth i (usernames t) [] in
          let message := sanitizeMessage messageRaw name uname in
          let s := set_lastStep (Some (js "send_dm")) s in
          (set_pc (AwaitSend i pk message) t, s)
      | Rejected e => fail e i a t s
      end
  | AwaitSend i _ _, Broadcast (Fulfilled _) => succeed i a t s
  | AwaitSend i _ _, Broadcast (Rejected e) => fail e i a t s
  | AwaitDelay i target, Ticked => countdown i target (clock_check a) t s
  | _, _ => (t, s)
  end.

(** The task as it is created, and its run up to the first await; the
    job state is the one of lines 145-157. *)
Definition newTask (usernames proxyList : list str) : task :=
  mkTask usernames proxyList 0 None (AwaitResolve 0).

Definition launch (igUsername : str) (usernames proxyList : list str)
           (userAgent : option str) : task * JobState :=
  loop_top 0 (newTask usernames proxyList)
           (fresh igUsername usernames userAgent).

(** *** One job on its own *)

(** Between two awaits of the task another party may clear the shared
    flag [state.running], which the loop reads at lines 166 and 211. *)
Inductive input : Type :=
| Resume : event -> ambient -> input
| ClearRunning : input.

Definition step (m : task * JobState) (x : input) : task * JobState :=
  match x with
  | Resume ev a => resume ev a (fst m) (snd m)
  | ClearRunning => (fst m, set_running false (snd m))
  end.

Definition run (xs : list input) (m : task * JobState) : task * JobState :=
  fold_left step xs m.

Definition is_resume (x : input) : bool :=
  match x with Resume _ _ => true | ClearRunning => false end.

(** How a dispatch ends, if this event ends one: [Some None] for a sent
    message, [Some (Some e)] for a failure with the thrown value. *)
Definition outcome (p : point) (ev : event) : option (option thrown) :=
  match p, ev with
  | AwaitResolve _, Resolved (Rejected e) => Some (Some e)
  | AwaitGenerate _ _ _, Generated x =>
      match openrouterGenerate x with
      | Rejected e => Some (Some e)
      | Fulfilled _ => None
      end
  | AwaitSend _ _ _, Broadcast (Fulfilled _) => Some None
  | AwaitSend _ _ _, Broadcast (Rejected e) => Some (Some e)
  | _, _ => None
  end.

(** The outcomes of the dispatches of a run, in order. *)
Fixpoint outcomes (xs : list input) (m : task * JobState)
  : list (option thrown) :=
  match xs with
  | [] => []
  | x :: xs' =>
      match x with
      | Resume ev _ =>
          match outcome (pc (fst m)) ev with
          | Some o => [o]
          | None => []
          end
      | ClearRunning => []
      end ++ outcomes xs' (step m x)
  end.


End Job.

(* ================================================================== *)
(** ** The HTTP surface of the server and the client's Stop button *)
(* ================================================================== *)

Module App.
Import JS Job.
Local Open Scope Z_scope.

(** The three fields of a parsed [URL] that [isValidProxy] reads. *)
Record URL : Type := mkURL { protocol : str; hostname : str; port : str }.

(** An element of the [proxies] array of the request. *)
Inductive item : Type :=
| JString : str -> item
| JOther : item.

(** The body of a request as [express.json()] leaves it; a field is
    [None] when it is missing or has another type than the declared one. *)
Record body : Type := mkBody {
  igUsername : option str;
  igPassword : option str;
  systemPrompt : option str;
  usernamesField : option (list str);
  proxiesField : option (list item);
  userAgentField : option str
}.

Definition emptyBody : body := mkBody None None None None None None.

(** A start handler suspended at [await ig.account.login] (line 142). *)
Record login : Type := mkLogin {
  loginUser : str;
  loginDevice : str;
  loginUsernames : list str;
  loginProxies : option (list item);
  loginUserAgent : option str
}.

Inductive reply : Type :=
| ErrorReply : Z -> str -> reply        (* res.status(n).json({ error }) *)
| OkReply : reply                       (* res.json({ ok: true }) *)
| StatusReply : JobState -> Z -> reply  (* the status object, secondsRemaining *)
| NotFound : reply.                     (* no route matches: Express answers 404 *)

Definition statusCode (r : reply) : Z :=
  match r with
  | ErrorReply n _ => n
  | OkReply => 200
  | StatusReply _ _ => 200
  | NotFound => 404
  end.

(** [Response.ok] of fetch. *)
Definition replyOk (r : reply) : bool :=
  (200 <=? statusCode r) && (statusCode r <=? 299).

Record server : Type := mkServer {
  state : JobState;
  logins : list login;
  loops : list task
}.

Definition boot : server := mkServer idle [] [].

Inductive handler : Type := StartHandler | StatusHandler.

(** The routes registered on [app] (lines 103 and 229).  Paths are
    compared exactly. *)
Definition routes : list (str * str * handler) :=
  [(js "POST", js "/api/start", StartHandler);
   (js "GET", js "/api/status", StatusHandler)].

Definition route (method path : str) : option handler :=
  match
    find (fun r => str_eqb (fst (fst r)) method && str_eqb (snd (fst r)) path)
         routes
  with
  | Some r => Some (snd r)
  | None => None
  end.

Definition falsy (o : option str) : bool :=
  match o with Some x => negb (truthy x) | None => true end.

Definition orUndefined (o : option str) : option str :=
  match o with Some x => if truthy x then Some x else None | None => None end.

Fixpoint remove_nth {A : Type} (k : nat) (l : list A) : list A :=
  match l, k with
  | [], _ => []
  | _ :: t, O => t
  | x :: t, S k' => x :: remove_nth k' t
  end.

Fixpoint update_nth {A : Type} (k : nat) (v : A) (l : list A) : list A :=
  match l, k with
  | [], _ => []
  | _ :: t, O => v :: t
  | x :: t, S k' => x :: update_nth k' v t
  end.

Section Server.

(** [new URL(p)]; [None] when it throws. *)
Variable parseURL : str -> option URL.
(** [process.env.OPENROUTER_API_KEY]. *)
Variable OPENROUTER_API_KEY : option str.

(** Lines 69-76. *)
Definition isValidProxy (p : str) : bool :=
  match parseURL p with
  | Some u =>
      (str_eqb (protocol u) (js "http:") || str_eqb (protocol u) (js "https:"))
      && truthy (hostname u) && truthy (port u)
  | None => false
  end.

(** Line 164. *)
Definition validProxies (proxies : option (list item)) : list str :=
  match proxies with
  | Some l =>
      flat_map
        (fun p => match p with
                  | JString x => if isValidProxy x then [x] else []
                  | JOther => []
                  end) l
  | None => []
  end.

(** [POST /api/start] up to the login (lines 104-142). *)
Definition handleStart (b : body) (sv : server) : server * option reply :=
  if running (state sv) then
    (sv, Some (ErrorReply 400 (js "Job already running")))
  else if falsy (igUsername b) || falsy (igPassword b)
          || falsy (systemPrompt b)
          || match usernamesField b with
             | Some l => (length l =? 0)%nat
             | None => true
             end
  then (sv, Some (ErrorReply 400 (js "Missing required fields")))
  else if falsy OPENROUTER_API_KEY then
    (sv, Some (ErrorReply 400 (js "Missing OPENROUTER_API_KEY in environment")))
  else
    let user := orEmpty (igUsername b) in
    let device :=
      if falsy (userAgentField b) then user else orEmpty (userAgentField b) in
    let pending :=
      mkLogin user device
              (match usernamesField b with Some l => l | None => [] end)
              (proxiesField b) (userAgentField b) in
    (mkServer (state sv) (logins sv ++ [pending]) (loops sv), None).

(** The rest of the start handler once the login has settled (lines
    144-226): the job state is replaced and the background task runs up
    to its first await before the reply is sent. *)
Definition handleLogin (k : nat) (r : settled unit) (sv : server)
  : server * option reply :=
  match nth_error (logins sv) k with
  | None => (sv, None)
  | Some l =>
      let rest := remove_nth k (logins sv) in
      match r with
      | Rejected e =>
          let message :=
            match e with
            | ErrorObject m => str_or m (js "Unknown error")
            | OtherValue _ => js "Unknown error"
            end in
          (mkServer (state sv) rest (loops sv), Some (ErrorReply 500 message))
      | Fulfilled _ =>
          let (t, s) :=
            launch (loginUser l) (loginUsernames l)
                   (validProxies (loginProxies l)) (loginUserAgent l) in
          (mkServer s rest (loops sv ++ [t]), Some OkReply)
      end
  end.

(** [GET /api/status] (lines 229-247). *)
Definition handleStatus (now : Z) (sv : server) : reply :=
  let s := state sv in
  let secondsRemaining :=
    match nextSendAt s with
    | Some at_ =>
        if at_ =? 0 then 0 else Z.max (- ((- (at_ - now)) / 1000)) 0
    | None => 0
    end in
  StatusReply
    (mkJobState (running s) (igUser s) (total s) (index s) (sent s) (failed s)
       (currentUsername s) (currentProxy s) (userAgent s)
       (match nextSendAt s with
        | Some at_ => if at_ =? 0 then None else Some at_
        | None => None
        end)
       (orUndefined (lastError s)) (orUndefined (lastStep s)))
    secondsRemaining.

(** What happens on the server: a request arrives, a pending login
    settles, or a background task runs on. *)
Inductive happening : Type :=
| Http : str -> str -> body -> Z -> happening    (* method, path, body, clock *)
| LoginSettled : nat -> settled unit -> happening
| LoopResumed : nat -> event -> ambient -> happening.

Definition serve (sv : server) (h : happening) : server * option reply :=
  match h with
  | Http method path b now =>
      match route method path with
      | Some StartHandler => handleStart b sv
      | Some StatusHandler => (sv, Some (handleStatus now sv))
      | None => (sv, Some NotFound)
      end
  | LoginSettled k r => handleLogin k r sv
  | LoopResumed k ev a =>
      match nth_error (loops sv) k with
      | Some t =>
          let (t', s') := resume ev a t (state sv) in
          (mkServer s' (logins sv) (update_nth k t' (loops sv)), None)
      | None => (sv, None)
      end
  end.

Definition history (hs : list happening) (sv : server) : server :=
  fold_left (fun sv h => fst (serve sv h)) hs sv.

End Server.

(** *** The Stop button of the client (App.tsx, lines 283-291) *)

Inductive effect : Type :=
| SetRunning : bool -> effect
| Alert : str -> effect.

(** The click handler, given how [fetch('/api/stop', { method: 'POST' })]
    settles. *)
Definition onStopClick (r : settled reply) : effect :=
  match r with
  | Fulfilled rp =>
      if negb (replyOk rp)
      then Alert (str_or (js "Failed to stop") (js "Failed to stop job"))
      else SetRunning false
  | Rejected e =>
      Alert (match e with
             | ErrorObject m => str_or m (js "Failed to stop job")
             | OtherValue _ => js "Failed to stop job"
             end)
  end.

End App.

(* ================================================================== *)
(** ** Vocabulary of the statements about the sanitizer *)
(* ================================================================== *)

Module TextTerms.
Import JS Regex Sanitizer.
Local Open Scope N_scope.

(** Two neighbouring whitespace code units somewhere in [s]. *)
Fixpoint adjacent_spaces (s : str) : bool :=
  match s with
  | c1 :: t =>
      match t with
      | c2 :: _ => (is_space c1 && is_space c2) || adjacent_spaces t
      | [] => false
      end
  | [] => false
  end.

(** [s] neither starts nor ends with whitespace. *)
Definition starts_clean (s : str) : bool :=
  match s with c :: _ => negb (is_space c) | [] => true end.

Definition trimmed (s : str) : bool := starts_clean s && starts_clean (rev s).

(** The whitespace run at the head of [s]. *)
Fixpoint span (p : cu -> bool) (s : str) : nat :=
  match s with
  | c :: t => if p c then S (span p t) else O
  | [] => O
  end.

(** The code units that never survive. *)
Definition stripped (c : cu) : bool := existsb (N.eqb c) (js "*`_>#[]<").

(** A pattern that can only start at a code unit of class [p]. *)
Definition opens_with (r : regex) (p : cu -> bool) : Prop :=
  first_match r [] = None /\
  forall c t, p c = false -> first_match r (c :: t) = None.

(** [s] starts with two whitespace code units. *)
Definition two_spaces (s : str) : bool :=
  match s with
  | c1 :: c2 :: _ => is_space c1 && is_space c2
  | _ => false
  end.

(** A whitespace code unit followed by a line break somewhere in [s]. *)
Fixpoint space_then_break (s : str) : bool :=
  match s with
  | c1 :: t =>
      match t with
      | c2 :: _ => (is_space c1 && (LF =? c2)) || space_then_break t
      | [] => false
      end
  | [] => false
  end.

Definition starts_with_break (s : str) : bool :=
  match s with c :: _ => LF =? c | [] => false end.

(** The length of the longest prefix of [s] that is whitespace and ends
    with a line break, if there is one. *)
Fixpoint reach (s : str) : option nat :=
  match s with
  | c :: t =>
      if is_space c then
        match reach t with
        | Some n => Some (S n)
        | None => if LF =? c then Some 1%nat else None
        end
      else None
  | [] => None
  end.

(** The alternatives of the square-bracket and brace patterns. *)
Definition square_spellings : list str :=
  [js "[Name]"; js "[name]"; js "[Your Name/Brand]"; js "[your name]";
   js "[brand]"; js "[Brand]"].

Definition brace_spellings : list str := [js "{name}"; js "{Name}"].

(** The letters of "name" in any case. *)
Definition name_i (w : str) : bool :=
  str_eqb (List.map fold_case w) (js "NAME") && forallb (fun x => x <? 128) w.

(** What the angle pattern matches: [<], whitespace, the letters,
    whitespace, [>]. *)
Definition angle_spelling (ws1 w ws2 : str) : str :=
  60 :: ws1 ++ w ++ ws2 ++ [62].

(** A code unit at which one of the three patterns can start. *)
Definition opener (x : cu) : bool := (x =? 91) || (x =? 123) || (x =? 60).

(** A message cut into plain text and placeholders. *)
Inductive piece : Type :=
| Text : str -> piece
| Square : str -> piece
| Brace : str -> piece
| Angle : str -> str -> str -> piece.

Definition piece_ok (pc : piece) : bool :=
  match pc with
  | Text t => forallb (fun x => negb (opener x)) t
  | Square p => existsb (str_eqb p) square_spellings
  | Brace p => existsb (str_eqb p) brace_spellings
  | Angle ws1 w ws2 => forallb is_space ws1 && name_i w && forallb is_space ws2
  end.

Definition source (pc : piece) : str :=
  match pc with
  | Text t => t
  | Square p => p
  | Brace p => p
  | Angle ws1 w ws2 => angle_spelling ws1 w ws2
  end.

Definition result (fallback : str) (pc : piece) : str :=
  match pc with
  | Text t => t
  | _ => fallback
  end.

(** A fallback name that the replacement machinery copies as it is and
    that the later passes do not look into. *)
Definition plain_name (fallback : str) : bool :=
  forallb (fun x => negb ((x =? 36) || opener x)) fallback.

(** One pass over a subject cut into segments: text in which the pattern
    cannot start, and text the pattern matches where it stands. *)
Inductive seg : Type :=
| Inert : str -> seg
| Hit : str -> seg.

Definition seg_src (sg : seg) : str :=
  match sg with Inert t => t | Hit p => p end.

Definition seg_out (fallback : str) (sg : seg) : str :=
  match sg with Inert t => t | Hit _ => fallback end.

Definition seg_ok (r : regex) (op : cu -> bool) (sg : seg) : Prop :=
  match sg with
  | Inert t => forall x, In x t -> op x = false
  | Hit p => exists k, length p = S k /\
                       forall rest, first_match r (p ++ rest) = Some (S k)
  end.

(** The pieces as each of the three passes meets them. *)
Definition view_square (fallback : str) (pc : piece) : seg :=
  match pc with
  | Square p => Hit p
  | _ => Inert (source pc)
  end.

Definition view_brace (fallback : str) (pc : piece) : seg :=
  match pc with
  | Text t => Inert t
  | Square _ => Inert fallback
  | Brace p => Hit p
  | Angle _ _ _ => Inert (source pc)
  end.

Definition view_angle (fallback : str) (pc : piece) : seg :=
  match pc with
  | Text t => Inert t
  | Square _ | Brace _ => Inert fallback
  | Angle _ _ _ => Hit (source pc)
  end.

End TextTerms.

(* ================================================================== *)
(** ** Vocabulary of the statements about the job *)
(* ================================================================== *)

Module JobTerms.
Import JS Job.
Local Open Scope Z_scope.

(** The counters and the error text are left alone. *)
Definition kept (s s' : JobState) : Prop :=
  total s' = total s /\ sent s' = sent s /\ failed s' = failed s /\
  lastError s' = lastError s.

(** The recipient the task is working on, if it has not finished. *)
Definition turn (p : point) : option nat :=
  match p with
  | AwaitResolve i | AwaitGenerate i _ _ | AwaitSend i _ _ | AwaitDelay i _ =>
      Some i
  | Finished => None
  end.

(** The task is in the wait between two sends. *)
Definition waiting (p : point) : bool :=
  match p with AwaitDelay _ _ => true | _ => false end.


(** The proxy in force during the dispatch of recipient [i]. *)
Definition assigned (proxies : list str) (i : nat) : option str :=
  match proxies with
  | [] => None
  | _ :: _ => nth_error proxies (i mod length proxies)
  end.

(** The rotation while a job runs: during the dispatch of recipient [i]
    and the wait after it, the job state and the session hold the proxy
    assigned to [i] and the cursor has moved past it; with no proxy the
    cursor stays at 0, also once the task has finished. *)
Definition rotation (proxies : list str) (m : task * JobState) : Prop :=
  proxyList (fst m) = proxies /\
  match turn (pc (fst m)) with
  | Some i =>
      currentProxy (snd m) = assigned proxies i /\
      proxyUrl (fst m) = assigned proxies i /\
      proxyIndex (fst m) = match proxies with [] => O | _ :: _ => S i end
  | None => proxies = [] -> proxyIndex (fst m) = O
  end.

(** The target that lines 203-208 compute from the clock and the draws. *)
Definition planned (a : ambient) : Z :=
  clock a +
  (3600 + jitterSeconds (jitter_draw a) +
   (if captcha_roll a then captchaExtraDelaySeconds (captcha_draw a) else 0))
  * 1000.

(** The target computed at the end of the latest dispatch of a run that
    starts with [acc]. *)
Fixpoint last_planned (acc : option Z) (xs : list input)
         (m : task * JobState) : option Z :=
  match xs with
  | [] => acc
  | x :: xs' =>
      last_planned
        (match x with
         | Resume ev a =>
             match outcome (pc (fst m)) ev with
             | Some _ => Some (planned a)
             | None => acc
             end
         | ClearRunning => acc
         end)
        xs' (step m x)
  end.

(** [nextSendAt] while a job runs, [w] being the target computed at the
    end of the latest dispatch: absent up to the end of the first
    dispatch and once the task has finished; during a wait the target of
    that wait, which is [w]; during the later dispatches still [w], the
    target of the wait that is over. *)
Definition timetable (w : option Z) (m : task * JobState) : Prop :=
  match pc (fst m) with
  | Finished => nextSendAt (snd m) = None
  | AwaitDelay _ target => nextSendAt (snd m) = Some target /\ w = Some target
  | AwaitResolve i | AwaitGenerate i _ _ | AwaitSend i _ _ =>
      match i with
      | O => nextSendAt (snd m) = None
      | S _ => nextSendAt (snd m) = w /\ w <> None
      end
  end.

(** The values the code writes to [lastStep] (lines 156, 182, 186, 191). *)
Definition steps_written : list str :=
  [js "login_success"; js "resolve_user_pk"; js "generate_message";
   js "send_dm"].

(** The values the specification lists for [lastStep]. *)
Definition steps_of_the_spec : list str :=
  [js "login_success"; js "resolve_user"; js "generate_message";
   js "send_message"].

Definition lastStep_in (allowed : list str) (s : JobState) : Prop :=
  match lastStep s with
  | Some v => In v allowed
  | None => True
  end.

(** The specification's reading of [nextSendAt]: set only while some task
    is in the wait between two sends. *)
Definition only_while_waiting (sv : App.server) : Prop :=
  nextSendAt (App.state sv) <> None ->
  exists t, In t (App.loops sv) /\ waiting (pc t) = true.

(** *** Sample runs *)

Definition alice : str := js "alice".
Definition bob : str := js "bob".

(** Clock at 0, smallest jitter, no extra delay: the wait computed here
    ends at 3780000. *)
Definition quiet : ambient := mkAmbient 0 0 0 false 0.
(** The clock when that wait is over. *)
Definition later : ambient := mkAmbient 3780000 3780000 0 false 0.

Definition found : event :=
  Resolved (Fulfilled (mkUser 7 (Some (js "Alice")))).
Definition written : event :=
  Generated (Response true (js "200") (Some (js "Hi [Name]!"))).
Definition delivered : event := Broadcast (Fulfilled tt).
Definition unknown : event :=
  Resolved (Rejected (ErrorObject (js "User not found"))).

(** Two recipients: the first message is sent, the wait elapses, the
    second recipient cannot be resolved. *)
Definition first_sent_then_wait : list input :=
  [Resume found quiet; Resume written quiet; Resume delivered quiet;
   Resume Ticked later].

Definition two_recipients : list input :=
  first_sent_then_wait ++ [Resume unknown later].

(** Five recipients none of whom can be resolved, each wait elapsing at
    its first tick; and the proxy in the job state at the start of each of
    the five dispatches. *)
Definition turns (n : nat) : list input :=
  concat (repeat [Resume unknown quiet; Resume Ticked later] n).

Definition five_turns : list input := turns 5.

Definition proxies_seen (proxies : list str) : list (option str) :=
  List.map
    (fun k =>
       currentProxy
         (snd (run (firstn k five_turns)
                   (launch (js "me") (repeat alice 5) proxies None))))
    [0; 2; 4; 6; 8]%nat.

(** The same on the server: the start request, its login, and the task
    running on. *)
Definition no_parser (p : str) : option App.URL := None.

Definition start_two : App.body :=
  App.mkBody (Some (js "u")) (Some (js "p")) (Some (js "s"))
             (Some [alice; bob]) None None.

Definition started : list App.happening :=
  [App.Http (js "POST") (js "/api/start") start_two 0;
   App.LoginSettled 0 (Fulfilled tt)].

Definition second_dispatch : list App.happening :=
  started ++
  [App.LoopResumed 0 found quiet; App.LoopResumed 0 written quiet;
   App.LoopResumed 0 delivered quiet; App.LoopResumed 0 Ticked later].

End JobTerms.

(* ================================================================== *)
(** ** The random draws of the pacing *)
(* ================================================================== *)

Module Pacing.
Import SpecFloat.
Import Job.
Local Open Scope Z_scope.

(** The format of a Number: binary64. *)
Definition prec : Z := 53.
Definition emax : Z := 1024.

(** The double of a whole number, and the double 1. *)
Definition ofZ (n : Z) : spec_float := binary_normalize prec emax n 0 false.
Definition one : spec_float := S754_finite false 4503599627370496 (-52).

(** What [Math.random()] can return: a double that is [+0] or positive,
    and below 1. *)
Definition unit_double (u : spec_float) : bool :=
  match u with
  | S754_zero false => true
  | S754_finite false m e => bounded prec emax m e && SFltb u one
  | _ => false
  end.

(** [Math.floor] of a finite double, as a whole number. *)
Definition floor (x : spec_float) : option Z :=
  match x with
  | S754_zero _ => Some 0
  | S754_finite s m e =>
      let v := if s then Zneg m else Zpos m in
      Some (if 0 <=? e then v * 2 ^ e else v / 2 ^ (- e))
  | _ => None
  end.

(** [Math.floor(Math.random() * n)] for a sample [u] of [Math.random()]:
    the product is rounded to the nearest double before the floor. *)
Definition randomBelow (u : spec_float) (n : Z) : option Z :=
  floor (SFmul prec emax u (ofZ n)).

(** The literal [0.2]: the double nearest to one fifth. *)
Definition fifth : spec_float := S754_finite false 7205759403792794 (-55).

(** [Math.random() < 0.2] *)
Definition rollBelowFifth (u : spec_float) : bool := SFltb u fifth.

(** What the loop reads at lines 204-208 from the clock and from three
    samples of [Math.random()]: the one of [jitterSeconds] (max - min + 1
    is 241), the one compared with 0.2 and the one of
    [captchaExtraDelaySeconds] (61). *)
Definition ambientOf (clock clock_check : Z) (u1 u2 u3 : spec_float)
  : option ambient :=
  match randomBelow u1 241, randomBelow u3 61 with
  | Some jitter, Some extra =>
      Some (mkAmbient clock clock_check jitter (rollBelowFifth u2) extra)
  | _, _ => None
  end.

(** Samples: a double whose product with 241 is rounded up to 46, the
    largest double below 1, and the smallest positive double. *)
Definition sample_rounded_up : spec_float :=
  S754_finite false 6876865821047064 (-55).
Definition sample_largest : spec_float :=
  S754_finite false 9007199254740991 (-53).
Definition sample_smallest : spec_float := S754_finite false 1 (-1074).

End Pacing.

(* ================================================================== *)
(** ** Vocabulary of further statements about the server *)
(* ================================================================== *)

Module ServerTerms.
Import JS Job App JobTerms.
Local Open Scope Z_scope.


(** The proxy shown in the job state and the one set on the session come
    from the list of the task. *)
Definition drawn_from (proxies : list str) (m : task * JobState) : Prop :=
  proxyList (fst m) = proxies /\
  match currentProxy (snd m) with
  | Some x => In x proxies
  | None => True
  end /\
  match proxyUrl (fst m) with
  | Some x => In x proxies
  | None => True
  end.

(** The values of [lastStep] that a request can observe. *)
Definition steps_seen : list str :=
  [js "resolve_user_pk"; js "generate_message"; js "send_dm"].

(** What holds of the state a request can see and of the starts that
    wait for their login. *)
Definition observable (sv : server) : Prop :=
  lastStep_in steps_seen (state sv) /\
  Forall (fun l => loginUsernames l <> []) (logins sv).

(** The stage a task is attempting where it is suspended, under the
    name the code gives it. *)
Definition stage (p : point) : option str :=
  match p with
  | AwaitResolve _ => Some (js "resolve_user_pk")
  | AwaitGenerate _ _ _ => Some (js "generate_message")
  | AwaitSend _ _ _ => Some (js "send_dm")
  | AwaitDelay _ _ | Finished => None
  end.

(** The event is the one the task is waiting for. *)
Definition answers (p : point) (ev : event) : bool :=
  match p, ev with
  | AwaitResolve _, Resolved _ => true
  | AwaitGenerate _ _ _, Generated _ => true
  | AwaitSend _ _ _, Broadcast _ => true
  | AwaitDelay _ _, Ticked => true
  | _, _ => false
  end.

(** The task that a happening sets going, as it stands afterwards: the
    task a successful login launches, or the task that receives the
    event it is waiting for. *)
Definition set_going (parseURL : str -> option URL) (sv : server)
           (h : happening) : option task :=
  match h with
  | Http _ _ _ _ => None
  | LoginSettled k (Fulfilled _) =>
      match nth_error (logins sv) k with
      | Some l =>
          Some (fst (launch (loginUser l) (loginUsernames l)
                            (validProxies parseURL (loginProxies l))
                            (loginUserAgent l)))
      | None => None
      end
  | LoginSettled _ (Rejected _) => None
  | LoopResumed k ev a =>
      match nth_error (loops sv) k with
      | Some t =>
          if answers (pc t) ev then Some (fst (resume ev a t (state sv)))
          else None
      | None => None
      end
  end.

(** The stage that a happening begins, if it begins one. *)
Definition attempted (parseURL : str -> option URL) (sv : server)
           (h : happening) : option str :=
  match set_going parseURL sv h with
  | Some t => stage (pc t)
  | None => None
  end.

(** *** Jobs that do not overlap *)






(** The counters and the cursor of a job of [n] recipients that nobody
    else disturbs, and the recipient shown. *)
Definition cursor (m : task * JobState) : Prop :=
  let n := length (usernames (fst m)) in
  let s := snd m in
  total s = Z.of_nat n /\ 0 <= sent s /\ 0 <= failed s /\
  match pc (fst m) with
  | AwaitDelay i _ =>
      (S i < n)%nat /\ running s = true /\ index s = Z.of_nat i /\
      sent s + failed s = Z.of_nat i + 1 /\
      currentUsername s = nth_error (usernames (fst m)) i
  | Finished =>
      running s = false /\ index s = Z.of_nat n - 1 /\
      sent s + failed s = Z.of_nat n /\ currentUsername s = None
  | _ =>
      exists i, turn (pc (fst m)) = Some i /\
      (i < n)%nat /\ running s = true /\ index s = Z.of_nat i /\
      sent s + failed s = Z.of_nat i /\
      currentUsername s = nth_error (usernames (fst m)) i
  end.



(** The conditions of lines 105-132 under which a start request goes on
    to the login. *)
Definition startable (key : option str) (b : body) (sv : server) : bool :=
  negb (running (state sv))
  && negb (falsy (igUsername b)) && negb (falsy (igPassword b))
  && negb (falsy (systemPrompt b))
  && match usernamesField b with
     | Some (_ :: _) => true
     | _ => false
     end
  && negb (falsy key).

(** *** Samples *)

Definition one_proxy : list item := [JString (js "http://10.0.0.1:8080")].

Definition http_parser (p : str) : option URL :=
  if str_eqb p (js "http://10.0.0.1:8080")
  then Some (mkURL (js "http:") (js "10.0.0.1") (js "8080"))
  else None.

Definition busy : server :=
  history no_parser (Some (js "key")) started boot.

Definition pending_start : server :=
  fst (serve no_parser (Some (js "key")) boot
             (Http (js "POST") (js "/api/start") start_two 0)).


(** Two start requests that both pass the check of line 105 before
    either login settles: the first task fails on its two recipients and
    exits while the second task, which has failed on its first
    recipient, is still waiting. *)
Definition overlapping : list happening :=
  [Http (js "POST") (js "/api/start") start_two 0;
   Http (js "POST") (js "/api/start") start_two 0;
   LoginSettled 0 (Fulfilled tt); LoginSettled 0 (Fulfilled tt);
   LoopResumed 0 unknown quiet; LoopResumed 1 unknown quiet;
   LoopResumed 0 Ticked later; LoopResumed 0 unknown later].

Definition waiting_task : task :=
  mkTask [alice; bob] [] 0 None (AwaitDelay 0 3780000).

Definition resolving_task : task :=
  mkTask [alice; bob] [] 0 None (AwaitResolve 0).

End ServerTerms.

(* ================================================================== *)
(** ** The client: imports, start guard and the countdown text *)
(* ================================================================== *)

(** The parts of App.tsx that compute: [formatHMS] (lines 7-14), the two
    file imports (lines 73-107) and the guard of [onStart] (lines
    123-131).  A number shown or parsed is a non-negative integer in
    decimal. *)
Module Client.
Import JS Regex.
Local Open Scope N_scope.

(** [str.split(/r/)]: [piece] is the text since the last separator and
    [skip] the number of code units of the current separator still to
    pass over.  A match that is empty splits only when it does not stand
    at the start of the piece, and no match is tried at the end of the
    subject. *)
Fixpoint split_from (r : regex) (piece : str) (skip : nat) (s : str)
  : list str :=
  match skip with
  | S k =>
      match s with
      | _ :: t => split_from r piece k t
      | [] => [piece]
      end
  | O =>
      match s with
      | [] => [piece]
      | c :: t =>
          match first_match r s with
          | Some (S k) => piece :: split_from r [] k t
          | Some O =>
              match piece with
              | [] => split_from r [c] 0 t
              | _ :: _ => piece :: split_from r [c] 0 t
              end
          | None => split_from r (piece ++ [c]) 0 t
          end
      end
  end.

Definition split (r : regex) (s : str) : list str :=
  match s with
  | [] => match first_match r [] with Some _ => [] | None => [[]] end
  | _ :: _ => split_from r [] 0 s
  end.

(** [/^r$/.test(s)]: some way of matching [r] at the start reaches the
    end of [s]. *)
Definition test_whole (r : regex) (s : str) : bool :=
  existsb (Nat.eqb (length s)) (matches r s).

(** [/\r?\n/] *)
Definition re_newline : regex := Or (Cat (lit 13) (lit LF)) (lit LF).

(** The class [[a-z0-9._]] under the [i] flag. *)
Definition name_class (x : cu) : bool :=
  (x <? 128)
  && (((65 <=? fold_case x) && (fold_case x <=? 90))
      || ((48 <=? x) && (x <=? 57)) || (x =? 46) || (x =? 95)).

(** [/^[a-z0-9._]+$/i] without its anchors. *)
Definition re_username : regex := AtLeast 1%nat name_class.

(** [raw.startsWith('@') ? raw.slice(1) : raw] *)
Definition dropAt (raw : str) : str :=
  if startsWith [64] raw then tl raw else raw.

(** The loop of lines 80-87 from line index [i] on: the accepted names
    and the numbers of the refused lines. *)
Fixpoint scanNames (i : nat) (lines : list str) : list str * list nat :=
  match lines with
  | [] => ([], [])
  | line :: rest =>
      let raw := trim line in
      let (clean, invalid) := scanNames (S i) rest in
      if negb (truthy raw) then (clean, invalid)
      else
        let name := dropAt raw in
        if test_whole re_username name then (name :: clean, invalid)
        else (clean, (i + 1)%nat :: invalid)
  end.

(** [onFileChange] (lines 73-93) on the text of the file: what goes to
    [setUsernames] and to [setInvalidLines]. *)
Definition onFileChange (text : str) : list str * list nat :=
  scanNames 0 (split re_newline text).

(** [onProxyFileChange] (lines 95-107): what goes to [setProxies]. *)
Definition onProxyFileChange (text : str) : list str :=
  filter truthy (List.map trim (split re_newline text)).

(** The guard of [onStart] (lines 124-131): a request is sent only with a
    user name, a password and at least one imported recipient. *)
Definition maySend (username password : str) (usernames : list str) : bool :=
  truthy username && truthy password
  && negb (length usernames =? 0)%nat.

(** The body [onStart] posts (lines 139-146). *)
Definition startBody (username password systemPrompt : str)
           (usernames proxies : list str) (userAgent : str) : App.body :=
  App.mkBody (Some username) (Some password) (Some systemPrompt)
             (Some usernames) (Some (List.map App.JString proxies))
             (Some userAgent).

(** [n.toString()] of a non-negative integer. *)
Fixpoint digits (u : Decimal.uint) : str :=
  match u with
  | Decimal.Nil => []
  | Decimal.D0 u' => 48 :: digits u'
  | Decimal.D1 u' => 49 :: digits u'
  | Decimal.D2 u' => 50 :: digits u'
  | Decimal.D3 u' => 51 :: digits u'
  | Decimal.D4 u' => 52 :: digits u'
  | Decimal.D5 u' => 53 :: digits u'
  | Decimal.D6 u' => 54 :: digits u'
  | Decimal.D7 u' => 55 :: digits u'
  | Decimal.D8 u' => 56 :: digits u'
  | Decimal.D9 u' => 57 :: digits u'
  end.

Definition toString (n : N) : str := digits (N.to_uint n).

(** [text.padStart(2, '0')] *)
Definition padStart2 (text : str) : str :=
  match text with
  | [] => [48; 48]
  | [c] => [48; c]
  | _ => text
  end.




(** [formatHMS] (lines 7-14) on a whole number of seconds. *)
Definition formatHMS (totalSeconds : Z) : str :=
  let s := Z.to_N (Z.max 0 totalSeconds) in
  let h := s / 3600 in
  let m := (s mod 3600) / 60 in
  let sec := s mod 60 in
  padStart2 (toString h) ++ [58] ++ padStart2 (toString m) ++ [58]
  ++ padStart2 (toString sec).

End Client.

(* ================================================================== *)
(** ** Vocabulary of the statements about the client *)
(* ================================================================== *)

Module ClientTerms.
Import JS Regex Client.
Local Open Scope N_scope.

(** The value of a text of decimal digits. *)
Fixpoint readDigits (s : str) : option Decimal.uint :=
  match s with
  | [] => Some Decimal.Nil
  | c :: t =>
      match readDigits t with
      | None => None
      | Some u =>
          if c =? 48 then Some (Decimal.D0 u)
          else if c =? 49 then Some (Decimal.D1 u)
          else if c =? 50 then Some (Decimal.D2 u)
          else if c =? 51 then Some (Decimal.D3 u)
          else if c =? 52 then Some (Decimal.D4 u)
          else if c =? 53 then Some (Decimal.D5 u)
          else if c =? 54 then Some (Decimal.D6 u)
          else if c =? 55 then Some (Decimal.D7 u)
          else if c =? 56 then Some (Decimal.D8 u)
          else if c =? 57 then Some (Decimal.D9 u)
          else None
      end
  end.

Definition decimalValue (s : str) : option N :=
  match s with
  | [] => None
  | _ :: _ => option_map N.of_uint (readDigits s)
  end.

(** [lines.join('\n')] *)
Fixpoint joinLines (lines : list str) : str :=
  match lines with
  | [] => []
  | line :: rest =>
      match rest with
      | [] => line
      | _ :: _ => line ++ [LF] ++ joinLines rest
      end
  end.

(** The lines of a file that hold more than whitespace. *)
Definition filled (lines : list str) : list str :=
  filter (fun line => truthy (trim line)) lines.

(** Strictly increasing numbers between [lo] and [hi]. *)
Fixpoint ascending (lo hi : nat) (l : list nat) : bool :=
  match l with
  | [] => true
  | n :: l' => (lo <? n)%nat && (n <=? hi)%nat && ascending n hi l'
  end.

End ClientTerms.

(* ================================================================== *)
(** ** Facts about the matcher and about replace *)
(* ================================================================== *)

Module RegexFacts.
Import JS Regex TextTerms.

Lemma star_le p s n : In n (star p s) -> (n <= length s)%nat.
Proof.
  revert n; induction s as [|c t IH]; simpl; intros n H.
  - destruct H as [<-|[]]; lia.
  - destruct (p c).
    + apply in_app_or in H. destruct H as [H|[<-|[]]]; [|lia].
      apply in_map_iff in H. destruct H as (m & <- & Hm).
      apply IH in Hm. lia.
    + destruct H as [<-|[]]; lia.
Qed.

Lemma at_least_le k p s n : In n (at_least k p s) -> (n <= length s)%nat.
Proof.
  revert s n; induction k as [|k IH]; simpl; intros s n H.
  - now apply star_le in H.
  - destruct s as [|c t]; [destruct H|].
    destruct (p c); [|destruct H].
    apply in_map_iff in H. destruct H as (m & <- & Hm).
    apply IH in Hm. simpl. lia.
Qed.

Lemma matches_le r : forall s n, In n (matches r s) -> (n <= length s)%nat.
Proof.
  induction r as [|p|r1 IH1 r2 IH2|r1 IH1 r2 IH2|k p]; simpl; intros s n H.
  - destruct H as [<-|[]]; lia.
  - destruct s as [|c t]; [destruct H|].
    destruct (p c); [|destruct H]. destruct H as [<-|[]]. simpl; lia.
  - apply in_flat_map in H. destruct H as (n1 & H1 & H).
    apply in_map_iff in H. destruct H as (n2 & <- & H2).
    apply IH1 in H1. apply IH2 in H2. rewrite length_skipn in H2. lia.
  - apply in_app_or in H. destruct H; auto.
  - now apply at_least_le in H.
Qed.

Lemma first_match_le r s n : first_match r s = Some n -> (n <= length s)%nat.
Proof.
  unfold first_match. destruct (matches r s) as [|m l] eqn:E; [discriminate|].
  intros [= <-]. apply (matches_le r s). rewrite E. now left.
Qed.

(** Passing over [k] code units of a match. *)
Lemma replace_from_skip r tpl k : forall before s,
  (k <= length s)%nat ->
  replace_from r tpl before k s =
  replace_from r tpl (before ++ firstn k s) 0 (skipn k s).
Proof.
  induction k as [|k IH]; intros before s Hk.
  - simpl firstn. simpl skipn. now rewrite app_nil_r.
  - destruct s as [|c t]; [simpl in Hk; lia|].
    simpl in Hk. simpl replace_from at 1. rewrite IH by lia.
    simpl. now rewrite <- app_assoc.
Qed.

(** One step of the scan. *)
Lemma replace_from_none r tpl before c t :
  first_match r (c :: t) = None ->
  replace_from r tpl before 0 (c :: t) =
  c :: replace_from r tpl (before ++ [c]) 0 t.
Proof. intros H. simpl. now rewrite H. Qed.

Lemma replace_from_some r tpl before s k :
  first_match r s = Some (S k) ->
  replace_from r tpl before 0 s =
  getSubstitution (firstn (S k) s) before (skipn (S k) s) tpl ++
  replace_from r tpl (before ++ firstn (S k) s) 0 (skipn (S k) s).
Proof.
  intros H. pose proof (first_match_le _ _ _ H) as Hle.
  destruct s as [|c t]; [simpl in Hle; lia|].
  simpl replace_from at 1. rewrite H. f_equal.
  simpl in Hle. rewrite replace_from_skip by lia.
  simpl. now rewrite <- app_assoc.
Qed.

Lemma replace_from_nil r tpl before :
  first_match r [] = None -> replace_from r tpl before 0 [] = [].
Proof. intros H. simpl. now rewrite H. Qed.

(** Induction on the length of the subject. *)
Lemma str_length_ind (P : str -> Prop) :
  (forall s, (forall s', (length s' < length s)%nat -> P s') -> P s) ->
  forall s, P s.
Proof.
  intros H s. remember (length s) as n eqn:E. revert s E.
  induction n as [n IH] using lt_wf_ind. intros s ->.
  apply H. intros s' Hlt. now apply (IH (length s')).
Qed.

(** A replacement text has no special pattern when it has no dollar sign. *)
Lemma getSubstitution_plain m b a tpl :
  ~ In 36%N tpl -> getSubstitution m b a tpl = tpl.
Proof.
  induction tpl as [|c t IH]; simpl; intros H; [reflexivity|].
  destruct (N.eqb_spec c 36) as [->|Hc]; [exfalso; apply H; now left|].
  f_equal. apply IH. intros Hin. apply H. now right.
Qed.

Lemma getSubstitution_in m b a tpl x :
  In x (getSubstitution m b a tpl) ->
  In x m \/ In x b \/ In x a \/ In x tpl.
Proof.
  revert x. induction tpl as [t IH] using str_length_ind. intros x.
  destruct t as [|c t]; simpl; [intros []|].
  destruct (N.eqb_spec c 36) as [->|Hc].
  - destruct t as [|d t'].
    + intros [<-|[]]; simpl; auto.
    + assert (Ht' : forall y, In y (getSubstitution m b a t') ->
                In y m \/ In y b \/ In y a \/ In y (36%N :: d :: t')).
      { intros y Hy. apply IH in Hy; [|simpl; lia].
        simpl. tauto. }
      destruct (N.eqb d 36).
      { intros [<-|H]; [simpl; auto|now apply Ht']. }
      destruct (N.eqb d 38).
      { intros H. apply in_app_or in H. destruct H; [auto|now apply Ht']. }
      destruct (N.eqb d 96).
      { intros H. apply in_app_or in H. destruct H; [auto|now apply Ht']. }
      destruct (N.eqb d 39).
      { intros H. apply in_app_or in H. destruct H; [auto|now apply Ht']. }
      intros [<-|H]; [simpl; auto|].
      apply IH in H; [|simpl; lia]. simpl in *. tauto.
  - intros [<-|H]; [simpl; auto|].
    apply IH in H; [|simpl; lia]. simpl. tauto.
Qed.

Lemma in_firstn_in (x : cu) n s : In x (firstn n s) -> In x s.
Proof. intros H. rewrite <- (firstn_skipn n s). apply in_or_app. auto. Qed.

Lemma in_skipn_in (x : cu) n s : In x (skipn n s) -> In x s.
Proof. intros H. rewrite <- (firstn_skipn n s). apply in_or_app. auto. Qed.

(** Every code unit of the result comes from the subject or from the
    replacement text. *)
Lemma replace_from_in r tpl x : forall s before k,
  In x (replace_from r tpl before k s) ->
  In x before \/ In x s \/ In x tpl.
Proof.
  induction s as [|c t IH]; intros before k H.
  - destruct k; simpl in H; [|destruct H].
    destruct (first_match r []); [|destruct H].
    rewrite app_nil_r in H. apply getSubstitution_in in H.
    rewrite firstn_nil, skipn_nil in H. simpl in H. tauto.
  - assert (Hrec : forall k', In x (replace_from r tpl (before ++ [c]) k' t) ->
                    In x before \/ In x (c :: t) \/ In x tpl).
    { intros k' Hk'. apply IH in Hk'. rewrite in_app_iff in Hk'.
      simpl in *. tauto. }
    destruct k as [|k]; simpl in H; [|exact (Hrec _ H)].
    destruct (first_match r (c :: t)) as [n|].
    + apply in_app_or in H. destruct H as [H|H].
      * apply getSubstitution_in in H.
        destruct H as [H|[H|[H|H]]]; auto.
        -- apply in_firstn_in in H. auto.
        -- apply in_skipn_in in H. auto.
      * destruct n; [destruct H as [<-|H]; [simpl; auto|]|]; exact (Hrec _ H).
    + destruct H as [<-|H]; [simpl; auto|exact (Hrec _ H)].
Qed.

Lemma replace_in r tpl s x :
  In x (replace r tpl s) -> In x s \/ In x tpl.
Proof.
  intros H. apply replace_from_in in H. simpl in H. tauto.
Qed.

(** Replacing a one-unit class by nothing is a filter. *)
Lemma replace_class_filter p : forall s before,
  replace_from (Chars p) [] before 0 s = filter (fun c => negb (p c)) s.
Proof.
  induction s as [|c t IH]; intros before; [reflexivity|].
  simpl. unfold first_match. simpl. destruct (p c); simpl; now rewrite IH.
Qed.

(** Where the pattern matches nowhere, replace changes nothing. *)
Lemma replace_from_id r tpl : forall s before,
  (forall n, first_match r (skipn n s) = None) ->
  replace_from r tpl before 0 s = s.
Proof.
  induction s as [|c t IH]; intros before H.
  - apply replace_from_nil. apply (H 0%nat).
  - rewrite replace_from_none by apply (H 0%nat).
    f_equal. apply IH. intros n. apply (H (S n)).
Qed.

Lemma replace_id r tpl s :
  (forall n, first_match r (skipn n s) = None) -> replace r tpl s = s.
Proof. apply replace_from_id. Qed.

End RegexFacts.

(* ================================================================== *)
(** ** Facts about trim and the whitespace passes *)
(* ================================================================== *)

Module SanitizerFacts.
Import JS Regex Sanitizer RegexFacts TextTerms.
Local Open Scope N_scope.

Lemma trimStart_split s :
  exists ws, s = ws ++ trimStart s /\ forallb is_space ws = true.
Proof.
  induction s as [|c t (ws & E & Hws)]; simpl.
  - now exists [].
  - destruct (is_space c) eqn:Hc.
    + exists (c :: ws). simpl. rewrite Hc, Hws. split; [now f_equal|reflexivity].
    + now exists [].
Qed.

Lemma trimStart_clean s : starts_clean (trimStart s) = true.
Proof.
  induction s as [|c t IH]; simpl; [reflexivity|].
  destruct (is_space c) eqn:Hc; [exact IH|]. simpl. now rewrite Hc.
Qed.

Lemma trimStart_id s : starts_clean s = true -> trimStart s = s.
Proof.
  destruct s as [|c t]; simpl; [reflexivity|].
  now destruct (is_space c).
Qed.

Lemma trimEnd_split s :
  exists ws, s = trimEnd s ++ ws /\ forallb is_space ws = true.
Proof.
  unfold trimEnd. destruct (trimStart_split (rev s)) as (ws & E & Hws).
  exists (rev ws). split.
  - rewrite <- (rev_involutive s), E at 1. now rewrite rev_app_distr.
  - rewrite forallb_forall in *. intros x Hx. apply Hws. now apply in_rev.
Qed.

Lemma starts_clean_app_l a b :
  starts_clean (a ++ b) = true -> starts_clean a = true.
Proof. destruct a; simpl; auto. Qed.

Lemma trim_trimmed s : trimmed (trim s) = true.
Proof.
  unfold trimmed, trim. apply andb_true_iff. split.
  - destruct (trimEnd_split (trimStart s)) as (ws & E & _).
    apply starts_clean_app_l with (b := ws). rewrite <- E.
    apply trimStart_clean.
  - unfold trimEnd. rewrite rev_involutive. apply trimStart_clean.
Qed.

Lemma trim_id s : trimmed s = true -> trim s = s.
Proof.
  unfold trimmed, trim, trimEnd. intros H. apply andb_true_iff in H.
  destruct H as [H1 H2].
  rewrite (trimStart_id _ H1), (trimStart_id _ H2). apply rev_involutive.
Qed.

Lemma trimStart_in x s : In x (trimStart s) -> In x s.
Proof.
  destruct (trimStart_split s) as (ws & E & _). intros H.
  rewrite E. apply in_or_app. now right.
Qed.

Lemma trim_in x s : In x (trim s) -> In x s.
Proof.
  unfold trim, trimEnd. intros H. apply in_rev in H.
  apply trimStart_in in H. apply in_rev in H. now apply trimStart_in in H.
Qed.

Lemma adjacent_spaces_app a b :
  adjacent_spaces (a ++ b) = false ->
  adjacent_spaces a = false /\ adjacent_spaces b = false.
Proof.
  induction a as [|c1 a IH]; simpl; [auto|].
  destruct a as [|c2 a]; simpl in *.
  - destruct b as [|c2 b]; [auto|].
    intros H. apply orb_false_iff in H. tauto.
  - intros H. apply orb_false_iff in H. destruct H as [H1 H2].
    apply IH in H2. rewrite H1. tauto.
Qed.

Lemma adjacent_spaces_trim s :
  adjacent_spaces s = false -> adjacent_spaces (trim s) = false.
Proof.
  intros H. unfold trim.
  destruct (trimStart_split s) as (ws1 & E1 & _).
  destruct (trimEnd_split (trimStart s)) as (ws2 & E2 & _).
  rewrite E1 in H. apply adjacent_spaces_app in H. destruct H as [_ H].
  rewrite E2 in H. now apply adjacent_spaces_app in H.
Qed.

(** *** The pass [/\s{2,}/g -> ' '] *)

Lemma star_head p s : exists l, star p s = span p s :: l.
Proof.
  induction s as [|c t (l & E)]; simpl; [now exists []|].
  destruct (p c); [|now exists []].
  rewrite E. simpl. now eexists.
Qed.

Lemma skipn_span_clean s : starts_clean (skipn (span is_space s) s) = true.
Proof.
  induction s as [|c t IH]; simpl; [reflexivity|].
  destruct (is_space c) eqn:Hc; simpl; [exact IH|now rewrite Hc].
Qed.

Lemma span_le p s : (span p s <= length s)%nat.
Proof. induction s as [|c t IH]; simpl; [lia|]. destruct (p c); simpl; lia. Qed.

(** [\s{2,}] matches exactly at two neighbouring whitespace units and
    then takes the whole run. *)
Lemma spaces2_first s :
  first_match re_spaces2 s =
  match s with
  | c1 :: c2 :: t =>
      if is_space c1 && is_space c2
      then Some (S (S (span is_space t))) else None
  | _ => None
  end.
Proof.
  unfold first_match, re_spaces2. simpl.
  destruct s as [|c1 [|c2 t]]; [reflexivity| |].
  - now destruct (is_space c1).
  - destruct (is_space c1); [|reflexivity].
    destruct (is_space c2); [|reflexivity]. simpl.
    destruct (star_head is_space t) as (l & ->). reflexivity.
Qed.

Lemma spaces2_clean_head before c t :
  is_space c = false ->
  replace_from re_spaces2 [SP] before 0 (c :: t) =
  c :: replace_from re_spaces2 [SP] (before ++ [c]) 0 t.
Proof.
  intros Hc. apply replace_from_none. rewrite spaces2_first.
  destruct t; [reflexivity|]. now rewrite Hc.
Qed.

Lemma spaces2_starts_clean before s :
  starts_clean s = true ->
  starts_clean (replace_from re_spaces2 [SP] before 0 s) = true.
Proof.
  destruct s as [|c t]; intros H.
  - rewrite replace_from_nil; [reflexivity|now rewrite spaces2_first].
  - simpl in H. apply negb_true_iff in H.
    rewrite spaces2_clean_head by exact H. simpl. now rewrite H.
Qed.

Lemma adjacent_spaces_cons c s :
  adjacent_spaces s = false ->
  (is_space c = true -> starts_clean s = true) ->
  adjacent_spaces (c :: s) = false.
Proof.
  intros Hs Hc. destruct s as [|d s]; [reflexivity|].
  simpl in *. rewrite Hs, orb_false_r.
  destruct (is_space c); [|reflexivity].
  specialize (Hc eq_refl). apply negb_true_iff in Hc. now rewrite Hc.
Qed.

(** After the last whitespace pass no two whitespace units are neighbours. *)
Lemma spaces2_no_adjacent : forall s before,
  adjacent_spaces (replace_from re_spaces2 [SP] before 0 s) = false.
Proof.
  induction s as [s IH] using str_length_ind. intros before.
  destruct (first_match re_spaces2 s) as [n|] eqn:E.
  - rewrite spaces2_first in E.
    destruct s as [|c1 [|c2 t]]; try discriminate.
    destruct (is_space c1 && is_space c2) eqn:H12; [|discriminate].
    injection E as <-.
    erewrite replace_from_some
      by (rewrite spaces2_first, H12; reflexivity).
    cbn [getSubstitution N.eqb SP app]. 
    apply adjacent_spaces_cons.
    + apply IH. simpl. pose proof (span_le is_space t).
      rewrite length_skipn. lia.
    + intros _. apply spaces2_starts_clean. simpl. apply skipn_span_clean.
  - destruct s as [|c t].
    + now rewrite replace_from_nil.
    + rewrite replace_from_none by exact E.
      apply adjacent_spaces_cons; [apply IH; simpl; lia|].
      intros Hc. apply spaces2_starts_clean.
      rewrite spaces2_first in E. destruct t as [|c2 t]; [reflexivity|].
      rewrite Hc in E. simpl in *. now destruct (is_space c2).
Qed.

Lemma collapse_no_adjacent s :
  adjacent_spaces (collapseWhitespace s) = false.
Proof. apply spaces2_no_adjacent. Qed.

Lemma collapse_in x s :
  In x (collapseWhitespace s) -> In x s \/ x = LF \/ x = SP.
Proof.
  unfold collapseWhitespace. intros H.
  apply replace_in in H. destruct H as [H|[<-|[]]]; [|auto].
  apply replace_in in H. destruct H as [H|[<-|[<-|[]]]]; [|auto|auto].
  apply replace_in in H. destruct H as [H|[<-|[]]]; auto.
Qed.

Lemma sanitize_no_adjacent msg name username :
  adjacent_spaces (sanitizeMessage msg name username) = false.
Proof.
  unfold sanitizeMessage. apply adjacent_spaces_trim, collapse_no_adjacent.
Qed.

Lemma sanitize_trimmed msg name username :
  trimmed (sanitizeMessage msg name username) = true.
Proof. unfold sanitizeMessage. apply trim_trimmed. Qed.

(** The two stripping passes as filters. *)
Lemma strip_markdown_filter s :
  replace re_markdown [] s =
  filter (fun c => negb (existsb (N.eqb c) (js "*`_>#"))) s.
Proof. apply replace_class_filter. Qed.

Lemma strip_brackets_filter s :
  replace re_brackets [] s =
  filter (fun c => negb (existsb (N.eqb c) (js "[]<>"))) s.
Proof. apply replace_class_filter. Qed.

Lemma sanitize_no_stripped msg name username x :
  In x (sanitizeMessage msg name username) -> stripped x = false.
Proof.
  unfold sanitizeMessage. intros H.
  apply trim_in in H. apply collapse_in in H.
  destruct H as [H|[->| ->]]; [|reflexivity|reflexivity].
  rewrite strip_brackets_filter in H. apply filter_In in H.
  destruct H as [H Hb]. rewrite strip_markdown_filter in H.
  apply filter_In in H. destruct H as [_ Hm].
  apply negb_true_iff in Hb, Hm. unfold stripped.
  cbn in Hb, Hm |- *.
  repeat (apply orb_false_iff in Hb; destruct Hb as [? Hb]).
  repeat (apply orb_false_iff in Hm; destruct Hm as [? Hm]).
  repeat (apply orb_false_iff; split; try assumption).
Qed.

End SanitizerFacts.

(* ================================================================== *)
(** ** Facts about the placeholder patterns *)
(* ================================================================== *)

Module PlaceholderFacts.
Import JS Regex Sanitizer RegexFacts SanitizerFacts TextTerms.
Local Open Scope N_scope.

Lemma matches_chars_cat p r x t :
  matches (Cat (Chars p) r) (x :: t) =
  if p x then List.map S (matches r t) else [].
Proof.
  simpl. destruct (p x); [|reflexivity]. simpl. now rewrite app_nil_r.
Qed.

Lemma matches_chars_cat_nil p r : matches (Cat (Chars p) r) [] = [].
Proof. reflexivity. Qed.

Lemma matches_cat r1 r2 s :
  matches (Cat r1 r2) s =
  flat_map
    (fun n1 => List.map (fun n2 => (n1 + n2)%nat) (matches r2 (skipn n1 s)))
    (matches r1 s).
Proof. reflexivity. Qed.

Lemma matches_or r1 r2 s :
  matches (Or r1 r2) s = matches r1 s ++ matches r2 s.
Proof. reflexivity. Qed.

Lemma startsWith_app a b s :
  startsWith (a ++ b) s = startsWith a s && startsWith b (skipn (length a) s).
Proof.
  revert s. induction a as [|x a IH]; intros s; [reflexivity|].
  destruct s as [|y s]; simpl; [reflexivity|].
  rewrite IH. now rewrite andb_assoc.
Qed.

Lemma matches_word w s :
  matches (word w) s = if startsWith w s then [length w] else [].
Proof.
  revert s. induction w as [|c w IH]; intros s; [reflexivity|].
  destruct s as [|y s]; [reflexivity|].
  cbn [word]. unfold lit. rewrite matches_chars_cat, IH.
  cbn [startsWith]. destruct (c =? y); [|reflexivity].
  now destruct (startsWith w s).
Qed.

(** The match the engine reports for [r1 r2] when the first way of
    matching [r1] can be continued. *)
Lemma first_match_cat r1 r2 s n1 l n2 :
  matches r1 s = n1 :: l ->
  first_match r2 (skipn n1 s) = Some n2 ->
  first_match (Cat r1 r2) s = Some (n1 + n2)%nat.
Proof.
  unfold first_match. simpl. intros -> H. simpl.
  destruct (matches r2 (skipn n1 s)); [discriminate|].
  injection H as ->. reflexivity.
Qed.

Lemma first_match_chars_cat p r x t :
  first_match (Cat (Chars p) r) (x :: t) =
  if p x then option_map S (first_match r t) else None.
Proof.
  unfold first_match. rewrite matches_chars_cat.
  destruct (p x); [|reflexivity]. now destruct (matches r t).
Qed.

Lemma opens_with_chars_cat p r : opens_with (Cat (Chars p) r) p.
Proof.
  split; [reflexivity|]. intros c t H.
  rewrite first_match_chars_cat. now rewrite H.
Qed.

Lemma square_opens : opens_with re_square (N.eqb 91).
Proof. apply opens_with_chars_cat. Qed.

Lemma brace_opens : opens_with re_brace (N.eqb 123).
Proof. apply opens_with_chars_cat. Qed.

Lemma angle_opens : opens_with re_angle (N.eqb 60).
Proof.
  split; [reflexivity|]. intros c t H. unfold re_angle, lit_i.
  rewrite first_match_chars_cat.
  destruct (c <? 128) eqn:H1; [|reflexivity]. simpl.
  destruct (N.eqb_spec (fold_case c) (fold_case 60)) as [E|]; [|reflexivity].
  exfalso. unfold fold_case in E. simpl in E.
  apply N.eqb_neq in H.
  destruct ((97 <=? c) && (c <=? 122)) eqn:H2.
  - apply andb_true_iff in H2. destruct H2 as [H2 H3].
    apply N.leb_le in H2. lia.
  - congruence.
Qed.

Lemma opens_with_id r p tpl s :
  opens_with r p ->
  (forall x, In x s -> p x = false) ->
  replace r tpl s = s.
Proof.
  intros [Hnil Hcons] Hs. apply replace_id. intros n.
  destruct (skipn n s) as [|c t] eqn:E; [exact Hnil|].
  apply Hcons, Hs. apply in_skipn_in with (n := n). rewrite E. now left.
Qed.

(** *** The brace pattern and [includes] *)

Lemma brace_first s :
  startsWith (js "{name}") s = false ->
  startsWith (js "{Name}") s = false ->
  first_match re_brace s = None.
Proof.
  intros H1 H2. destruct s as [|x t]; [reflexivity|].
  unfold re_brace, lit. rewrite first_match_chars_cat.
  destruct (123 =? x) eqn:Hx; [|reflexivity].
  assert (A1 : startsWith (js "name" ++ js "}") t = false).
  { change (js "{name}") with (123 :: (js "name" ++ js "}")) in H1.
    cbn [startsWith] in H1. now rewrite Hx in H1. }
  assert (A2 : startsWith (js "Name" ++ js "}") t = false).
  { change (js "{Name}") with (123 :: (js "Name" ++ js "}")) in H2.
    cbn [startsWith] in H2. now rewrite Hx in H2. }
  rewrite startsWith_app in A1, A2.
  change (length (js "name")) with 4%nat in A1.
  change (length (js "Name")) with 4%nat in A2.
  unfold first_match. rewrite matches_cat, matches_or, !matches_word.
  change (length (js "name")) with 4%nat.
  change (length (js "Name")) with 4%nat.
  assert (B : forall l, startsWith (js "}") l = false ->
                        matches (Chars (N.eqb 125)) l = []).
  { intros [|y l] H; [reflexivity|].
    change (startsWith (js "}") (y :: l)) with ((125 =? y) && true) in H.
    cbn [matches]. destruct (125 =? y); [discriminate|reflexivity]. }
  destruct (startsWith (js "name") t); destruct (startsWith (js "Name") t);
    cbn [andb] in A1, A2; cbn [app flat_map];
    try rewrite (B _ A1); try rewrite (B _ A2); reflexivity.
Qed.

Lemma includes_skipn w s :
  includes w s = false -> forall n, startsWith w (skipn n s) = false.
Proof.
  intros H n. revert s H. induction n as [|n IH]; intros s H.
  - destruct s; simpl in *; apply orb_false_iff in H; tauto.
  - destruct s as [|c t]; simpl in *; apply orb_false_iff in H;
      [tauto|]. apply IH. tauto.
Qed.

End PlaceholderFacts.

(* ================================================================== *)
(** ** Fixed points of the sanitizer *)
(* ================================================================== *)

Module SanitizerFixed.
Import JS Regex Sanitizer RegexFacts SanitizerFacts PlaceholderFacts TextTerms.
Local Open Scope N_scope.

Lemma no_adjacent_skipn s :
  adjacent_spaces s = false -> forall n, two_spaces (skipn n s) = false.
Proof.
  intros H n. revert s H. induction n as [|n IH]; intros s H.
  - destruct s as [|c1 [|c2 t]]; try reflexivity.
    simpl in *. apply orb_false_iff in H. tauto.
  - destruct s as [|c1 t]; [reflexivity|]. simpl skipn. apply IH.
    destruct t as [|c2 t]; [reflexivity|].
    simpl in H. apply orb_false_iff in H. tauto.
Qed.

Lemma LF_is_space c : (LF =? c) = true -> is_space c = true.
Proof. intros H. apply N.eqb_eq in H. now subst c. Qed.

Lemma space_before_break_first s :
  two_spaces s = false -> first_match re_space_before_break s = None.
Proof.
  unfold re_space_before_break, first_match. rewrite matches_cat.
  cbn [matches at_least].
  destruct s as [|c1 [|c2 t]]; [reflexivity| |].
  - intros _. destruct (is_space c1); reflexivity.
  - cbn [two_spaces]. intros H.
    destruct (is_space c1); [|reflexivity].
    cbn [andb] in H. cbn [star]. rewrite H.
    assert (E : (LF =? c2) = false).
    { destruct (N.eqb_spec LF c2) as [<-|]; [discriminate|reflexivity]. }
    unfold lit. cbn -[N.eqb LF]. now rewrite E.
Qed.

Lemma breaks3_first s :
  two_spaces s = false -> first_match re_breaks3 s = None.
Proof.
  unfold re_breaks3, first_match. cbn [matches at_least].
  destruct s as [|c1 [|c2 t]]; [reflexivity| |].
  - intros _. destruct (LF =? c1); reflexivity.
  - cbn [two_spaces]. intros H.
    destruct (LF =? c1) eqn:H1; [|reflexivity].
    destruct (LF =? c2) eqn:H2; [|reflexivity].
    apply LF_is_space in H1, H2. rewrite H1, H2 in H. discriminate.
Qed.

Lemma spaces2_first_none s :
  two_spaces s = false -> first_match re_spaces2 s = None.
Proof.
  intros H. rewrite spaces2_first.
  destruct s as [|c1 [|c2 t]]; try reflexivity.
  cbn [two_spaces] in H. now rewrite H.
Qed.

Lemma collapse_id s :
  adjacent_spaces s = false -> collapseWhitespace s = s.
Proof.
  intros H. pose proof (no_adjacent_skipn _ H) as Hn.
  unfold collapseWhitespace.
  rewrite (replace_id re_space_before_break)
    by (intros n; apply space_before_break_first, Hn).
  rewrite (replace_id re_breaks3) by (intros n; apply breaks3_first, Hn).
  apply replace_id. intros n. apply spaces2_first_none, Hn.
Qed.

Lemma filter_id (f : cu -> bool) s :
  (forall x, In x s -> f x = true) -> filter f s = s.
Proof.
  induction s as [|c t IH]; intros H; [reflexivity|].
  simpl. rewrite (H c) by now left. f_equal. apply IH.
  intros x Hx. apply H. now right.
Qed.

Lemma stripped_false x :
  stripped x = false ->
  (91 =? x) = false /\ (60 =? x) = false /\
  existsb (N.eqb x) (js "*`_>#") = false /\
  existsb (N.eqb x) (js "[]<>") = false.
Proof.
  unfold stripped. cbn -[N.eqb]. intros H.
  repeat (apply orb_false_iff in H; destruct H as [? H]).
  rewrite (N.eqb_sym 91), (N.eqb_sym 60).
  repeat split; try assumption;
    repeat (apply orb_false_iff; split; try assumption).
Qed.

(** A text that the sanitizer has nothing to do on. *)
Lemma sanitize_fixed y name username :
  trimmed y = true ->
  adjacent_spaces y = false ->
  (forall x, In x y -> stripped x = false) ->
  includes (js "{name}") y = false ->
  includes (js "{Name}") y = false ->
  sanitizeMessage y name username = y.
Proof.
  intros Ht Ha Hs H1 H2. unfold sanitizeMessage, replacePlaceholders.
  rewrite (trim_id _ Ht).
  rewrite (opens_with_id _ _ _ _ square_opens)
    by (intros x Hx; apply stripped_false; auto).
  rewrite (replace_id re_brace)
    by (intros n; apply brace_first; now apply includes_skipn).
  rewrite (opens_with_id _ _ _ _ angle_opens)
    by (intros x Hx; apply stripped_false; auto).
  rewrite strip_markdown_filter, filter_id
    by (intros x Hx; apply negb_true_iff, stripped_false; auto).
  rewrite strip_brackets_filter, filter_id
    by (intros x Hx; apply negb_true_iff, stripped_false; auto).
  rewrite (collapse_id _ Ha). apply trim_id, Ht.
Qed.

Lemma no_adjacent_no_double_break s :
  adjacent_spaces s = false -> includes [LF; LF] s = false.
Proof.
  induction s as [|c1 t IH]; [reflexivity|].
  intros H. cbn [includes]. apply orb_false_iff. split.
  - destruct t as [|c2 t]; cbn [startsWith].
    + now rewrite andb_false_r.
    + simpl in H. apply orb_false_iff in H. destruct H as [H _].
      destruct (LF =? c1) eqn:H1; [|reflexivity].
      destruct (LF =? c2) eqn:H2; [|reflexivity].
      apply LF_is_space in H1, H2. rewrite H1, H2 in H. discriminate.
  - apply IH. destruct t as [|c2 t]; [reflexivity|].
    simpl in H. apply orb_false_iff in H. tauto.
Qed.

End SanitizerFixed.

(* ================================================================== *)
(** ** The pass [/\s+\n/g] leaves no line break after whitespace *)
(* ================================================================== *)

Module BreakFacts.
Import JS Regex Sanitizer RegexFacts SanitizerFacts PlaceholderFacts.
Import SanitizerFixed TextTerms.
Local Open Scope N_scope.

(** [class* r] at a code unit of the class: first one more unit of the
    class, then [r] right here. *)
Lemma matches_star_cat_cons p r c t :
  p c = true ->
  matches (Cat (AtLeast 0 p) r) (c :: t) =
  List.map S (matches (Cat (AtLeast 0 p) r) t) ++ matches r (c :: t).
Proof.
  intros Hc. rewrite !matches_cat. cbn [matches at_least star]. rewrite Hc.
  rewrite flat_map_app. cbn [flat_map skipn]. rewrite app_nil_r.
  f_equal.
  - generalize (star p t). intros l.
    induction l as [|n l IH]; [reflexivity|].
    cbn [List.map flat_map skipn]. rewrite List.map_app, IH. f_equal.
    now rewrite List.map_map.
  - now rewrite List.map_id.
Qed.

Lemma matches_star_cat_stop p r c t :
  p c = false ->
  matches (Cat (AtLeast 0 p) r) (c :: t) = matches r (c :: t).
Proof.
  intros Hc. rewrite matches_cat. cbn [matches at_least star]. rewrite Hc.
  cbn [flat_map skipn]. now rewrite app_nil_r, List.map_id.
Qed.

Lemma spaces_then_break_reach s :
  first_match (Cat (AtLeast 0 is_space) (lit LF)) s = reach s.
Proof.
  induction s as [|c t IH]; [reflexivity|].
  unfold first_match in *. cbn [reach].
  destruct (is_space c) eqn:Hc.
  - rewrite matches_star_cat_cons by exact Hc.
    destruct (matches (Cat (AtLeast 0 is_space) (lit LF)) t) as [|n l];
      rewrite <- IH; cbn [List.map app].
    + unfold lit. cbn [matches]. now destruct (LF =? c).
    + reflexivity.
  - rewrite matches_star_cat_stop by exact Hc.
    unfold lit. cbn [matches].
    destruct (LF =? c) eqn:E; [|reflexivity].
    apply LF_is_space in E. congruence.
Qed.

(** Where [\s+\n] matches and how far. *)
Lemma space_before_break_reach c t :
  first_match re_space_before_break (c :: t) =
  if is_space c then option_map S (reach t) else None.
Proof.
  rewrite <- spaces_then_break_reach.
  unfold first_match, re_space_before_break.
  rewrite !matches_cat. cbn [matches at_least].
  destruct (is_space c); [|reflexivity].
  generalize (star is_space t). intros l.
  assert (E : forall l,
             flat_map
               (fun n1 => List.map (fun n2 => (n1 + n2)%nat)
                            (matches (lit LF) (skipn n1 (c :: t))))
               (List.map S l) =
             List.map S
               (flat_map
                  (fun n1 => List.map (fun n2 => (n1 + n2)%nat)
                               (matches (lit LF) (skipn n1 t))) l)).
  { clear l. induction l as [|n l IH]; [reflexivity|].
    cbn [List.map flat_map skipn]. rewrite List.map_app, IH. f_equal.
    now rewrite List.map_map. }
  rewrite E. now destruct (flat_map _ l).
Qed.

Lemma reach_after t : forall m,
  reach t = Some m -> reach (skipn m t) = None.
Proof.
  induction t as [|c t IH]; intros m H; [discriminate|].
  cbn [reach] in H. destruct (is_space c); [|discriminate].
  destruct (reach t) as [k|] eqn:E.
  - injection H as <-. cbn [skipn]. now apply IH.
  - destruct (LF =? c); [|discriminate]. injection H as <-. exact E.
Qed.

Lemma space_then_break_cons c l :
  space_then_break (c :: l) =
  (is_space c && starts_with_break l) || space_then_break l.
Proof.
  destruct l as [|d l]; cbn [space_then_break starts_with_break];
    [now rewrite andb_false_r|reflexivity].
Qed.

Lemma space_before_break_out : forall s before,
  space_then_break (replace_from re_space_before_break [LF] before 0 s) = false
  /\ (reach s = None ->
      starts_with_break
        (replace_from re_space_before_break [LF] before 0 s) = false).
Proof.
  induction s as [s IH] using str_length_ind. intros before.
  destruct s as [|c t].
  - rewrite replace_from_nil by reflexivity. now split.
  - pose proof (space_before_break_reach c t) as Hm.
    destruct (is_space c) eqn:Hc; [destruct (reach t) as [m|] eqn:Hr|].
    + cbn [option_map] in Hm. rewrite (replace_from_some _ _ _ _ _ Hm).
      rewrite getSubstitution_plain by (intros [E|[]]; discriminate E).
      cbn [app skipn].
      destruct (IH (skipn m t))
        with (before := before ++ firstn (S m) (c :: t)) as [I1 I2].
      { cbn [length]. rewrite length_skipn. lia. }
      specialize (I2 (reach_after _ _ Hr)). split.
      * rewrite space_then_break_cons, I1, I2. reflexivity.
      * cbn [reach]. rewrite Hc, Hr. discriminate.
    + cbn [option_map] in Hm. rewrite (replace_from_none _ _ _ _ _ Hm).
      destruct (IH t) with (before := before ++ [c]) as [I1 I2];
        [cbn; lia|]. specialize (I2 Hr). split.
      * rewrite space_then_break_cons, I1, I2. now rewrite andb_false_r.
      * cbn [reach]. rewrite Hc, Hr. cbn [starts_with_break].
        destruct (LF =? c); [discriminate|reflexivity].
    + rewrite (replace_from_none _ _ _ _ _ Hm).
      destruct (IH t) with (before := before ++ [c]) as [I1 I2];
        [cbn; lia|]. split.
      * rewrite space_then_break_cons, I1, Hc. reflexivity.
      * intros _. cbn [starts_with_break].
        destruct (LF =? c) eqn:E; [|reflexivity].
        apply LF_is_space in E. congruence.
Qed.

Lemma no_space_then_break_skipn s :
  space_then_break s = false ->
  forall n, first_match re_breaks3 (skipn n s) = None.
Proof.
  intros H n. revert s H. induction n as [|n IH]; intros s H.
  - cbn [skipn]. unfold re_breaks3, first_match. cbn [matches at_least].
    destruct s as [|c1 [|c2 t]]; [reflexivity| |].
    + now destruct (LF =? c1).
    + cbn [space_then_break] in H. apply orb_false_iff in H.
      destruct H as [H _].
      destruct (LF =? c1) eqn:E1; [|reflexivity].
      destruct (LF =? c2) eqn:E2; [|reflexivity].
      apply LF_is_space in E1. rewrite E1 in H. discriminate.
  - destruct s as [|c1 t]; [reflexivity|]. cbn [skipn]. apply IH.
    destruct t as [|c2 t]; [reflexivity|].
    cbn [space_then_break] in H. apply orb_false_iff in H. tauto.
Qed.

(** After [/\s+\n/g] the pass [/\n{3,}/g] finds nothing. *)
Lemma breaks3_pass_idle s :
  replace re_breaks3 [LF; LF] (replace re_space_before_break [LF] s) =
  replace re_space_before_break [LF] s.
Proof.
  apply replace_id, no_space_then_break_skipn.
  apply (space_before_break_out s []).
Qed.

End BreakFacts.

(* ================================================================== *)
(** ** The placeholder spellings that are replaced *)
(* ================================================================== *)

Module Placeholders.
Import JS Regex Sanitizer RegexFacts SanitizerFacts PlaceholderFacts TextTerms.
Local Open Scope N_scope.

(** *** One pass over a subject cut into segments *)

Lemma str_eqb_eq a b : str_eqb a b = true -> a = b.
Proof.
  revert b. induction a as [|x a IH]; intros [|y b]; simpl; try discriminate.
  - reflexivity.
  - intros H. apply andb_true_iff in H. destruct H as [H1 H2].
    apply N.eqb_eq in H1. subst y. f_equal. now apply IH.
Qed.

Lemma replace_inert r op tpl t : forall before rest,
  opens_with r op ->
  (forall x, In x t -> op x = false) ->
  replace_from r tpl before 0 (t ++ rest) =
  t ++ replace_from r tpl (before ++ t) 0 rest.
Proof.
  induction t as [|c t IH]; intros before rest Hop Ht.
  - simpl. now rewrite app_nil_r.
  - cbn [app]. rewrite replace_from_none
      by (apply Hop, Ht; now left).
    f_equal. rewrite IH; [|exact Hop|intros x Hx; apply Ht; now right].
    now rewrite <- app_assoc.
Qed.

Lemma replace_segs r op fallback segs :
  opens_with r op ->
  ~ In 36 fallback ->
  Forall (seg_ok r op) segs ->
  forall before,
    replace_from r fallback before 0 (flat_map seg_src segs) =
    flat_map (seg_out fallback) segs.
Proof.
  intros Hop Hfb Hok. induction Hok as [|sg segs Hsg _ IH]; intros before.
  - apply replace_from_nil, Hop.
  - cbn [flat_map]. destruct sg as [t|p]; cbn [seg_src seg_out].
    + rewrite (replace_inert _ _ _ _ _ _ Hop Hsg). now rewrite IH.
    + destruct Hsg as (k & Hlen & Hm).
      rewrite (replace_from_some _ _ _ _ _ (Hm _)).
      rewrite getSubstitution_plain by exact Hfb.
      rewrite <- Hlen, skipn_app, skipn_all, Nat.sub_diag.
      cbn [skipn app]. now rewrite IH.
Qed.

(** *** The three passes seen on the pieces *)

Lemma opener_false x :
  opener x = false ->
  (91 =? x) = false /\ (123 =? x) = false /\ (60 =? x) = false.
Proof.
  unfold opener. intros H.
  apply orb_false_iff in H. destruct H as [H H3].
  apply orb_false_iff in H. destruct H as [H1 H2].
  now rewrite (N.eqb_sym 91), (N.eqb_sym 123), (N.eqb_sym 60).
Qed.

Lemma text_no_opener t x :
  forallb (fun x => negb (opener x)) t = true -> In x t -> opener x = false.
Proof.
  intros H Hx. rewrite forallb_forall in H.
  apply negb_true_iff. now apply H.
Qed.

Lemma plain_name_spec fallback :
  plain_name fallback = true ->
  ~ In 36 fallback /\ forall x, In x fallback -> opener x = false.
Proof.
  unfold plain_name. intros H. rewrite forallb_forall in H. split.
  - intros Hin. apply H in Hin. discriminate.
  - intros x Hx. apply H in Hx. apply negb_true_iff in Hx.
    apply orb_false_iff in Hx. tauto.
Qed.

Lemma is_space_no_opener x : is_space x = true -> opener x = false.
Proof.
  intros H. unfold opener.
  destruct (N.eqb_spec x 91) as [->|_]; [discriminate|].
  destruct (N.eqb_spec x 123) as [->|_]; [discriminate|].
  destruct (N.eqb_spec x 60) as [->|_]; [discriminate|reflexivity].
Qed.

Lemma name_i_letters w :
  name_i w = true ->
  exists x1 x2 x3 x4, w = [x1; x2; x3; x4] /\
    (x1 <? 128) = true /\ (x2 <? 128) = true /\
    (x3 <? 128) = true /\ (x4 <? 128) = true /\
    fold_case x1 = 78 /\ fold_case x2 = 65 /\
    fold_case x3 = 77 /\ fold_case x4 = 69.
Proof.
  unfold name_i. intros H. apply andb_true_iff in H. destruct H as [H1 H2].
  apply str_eqb_eq in H1.
  destruct w as [|x1 [|x2 [|x3 [|x4 [|x5 w]]]]]; try discriminate.
  injection H1 as E1 E2 E3 E4. cbn [forallb] in H2.
  repeat (apply andb_true_iff in H2; destruct H2 as [? H2]).
  exists x1, x2, x3, x4. tauto.
Qed.

Lemma fold_case_opener x : fold_case x = x \/ (97 <= x /\ x <= 122).
Proof.
  unfold fold_case. destruct ((97 <=? x) && (x <=? 122)) eqn:E; [|now left].
  apply andb_true_iff in E. destruct E as [E1 E2].
  apply N.leb_le in E1, E2. now right.
Qed.

Lemma letter_not x k :
  fold_case x = k -> (65 <= k /\ k <= 90) ->
  opener x = false /\ is_space x = false.
Proof.
  intros E Hk.
  assert (Hx : (65 <= x /\ x <= 90) \/ (97 <= x /\ x <= 122)).
  { destruct (fold_case_opener x) as [E'|E']; [left; lia|now right]. }
  split.
  - unfold opener.
    destruct (N.eqb_spec x 91); [lia|].
    destruct (N.eqb_spec x 123); [lia|].
    destruct (N.eqb_spec x 60); [lia|reflexivity].
  - unfold is_space.
    repeat match goal with
           | |- context [?a <=? ?b] => destruct (N.leb_spec a b); try lia
           | |- context [?a =? ?b] => destruct (N.eqb_spec a b); try lia
           end; reflexivity.
Qed.

(** *** The spellings are matched where they stand *)

Lemma square_hit p rest :
  existsb (str_eqb p) square_spellings = true ->
  first_match re_square (p ++ rest) = Some (length p).
Proof.
  unfold square_spellings. cbn [existsb]. intros H.
  repeat (apply orb_true_iff in H; destruct H as [H|H];
          [apply str_eqb_eq in H; subst p; reflexivity|]).
  discriminate.
Qed.

Lemma brace_hit p rest :
  existsb (str_eqb p) brace_spellings = true ->
  first_match re_brace (p ++ rest) = Some (length p).
Proof.
  unfold brace_spellings. cbn [existsb]. intros H.
  repeat (apply orb_true_iff in H; destruct H as [H|H];
          [apply str_eqb_eq in H; subst p; reflexivity|]).
  discriminate.
Qed.

Lemma spelling_length (l : list str) p :
  existsb (str_eqb p) l = true ->
  Forall (fun q => q <> []) l -> exists k, length p = S k.
Proof.
  intros H Hl. apply existsb_exists in H. destruct H as (q & Hq & E).
  apply str_eqb_eq in E. subst q. rewrite Forall_forall in Hl.
  apply Hl in Hq. destruct p; [congruence|]. now eexists.
Qed.

Lemma span_app p ws s :
  forallb p ws = true ->
  match s with c :: _ => p c = false | [] => True end ->
  span p (ws ++ s) = length ws.
Proof.
  intros Hws Hs. induction ws as [|c ws IH]; simpl.
  - destruct s as [|c s]; [reflexivity|]. simpl. now rewrite Hs.
  - simpl in Hws. apply andb_true_iff in Hws. destruct Hws as [-> Hws].
    f_equal. now apply IH.
Qed.

(** [\s* r] where the whitespace run is followed by a match of [r]. *)
Lemma first_match_spaces_cat r ws s n :
  forallb is_space ws = true ->
  match s with c :: _ => is_space c = false | [] => True end ->
  first_match r s = Some n ->
  first_match (Cat (AtLeast 0 is_space) r) (ws ++ s) =
  Some (length ws + n)%nat.
Proof.
  intros Hws Hs Hr.
  destruct (star_head is_space (ws ++ s)) as (l & E).
  rewrite (span_app _ _ _ Hws Hs) in E.
  apply first_match_cat with (l := l); [exact E|].
  now rewrite skipn_app, skipn_all, Nat.sub_diag.
Qed.

Lemma lit_i_cons c r x t :
  (x <? 128) = true -> fold_case x = fold_case c ->
  first_match (Cat (lit_i c) r) (x :: t) = option_map S (first_match r t).
Proof.
  intros H1 H2. unfold lit_i. rewrite first_match_chars_cat.
  now rewrite H1, H2, N.eqb_refl.
Qed.

Lemma matches_name_i w s :
  name_i w = true -> matches (word_i (js "name")) (w ++ s) = [4%nat].
Proof.
  intros H. apply name_i_letters in H.
  destruct H as (x1 & x2 & x3 & x4 & -> & L1 & L2 & L3 & L4 & F1 & F2 & F3 & F4).
  change (word_i (js "name")) with
    (Cat (lit_i 110) (Cat (lit_i 97) (Cat (lit_i 109) (Cat (lit_i 101) Empty)))).
  unfold lit_i. cbn [app]. rewrite !matches_chars_cat.
  rewrite L1, L2, L3, L4, F1, F2, F3, F4. reflexivity.
Qed.

Lemma angle_hit ws1 w ws2 rest :
  forallb is_space ws1 = true -> name_i w = true ->
  forallb is_space ws2 = true ->
  first_match re_angle (angle_spelling ws1 w ws2 ++ rest) =
  Some (length (angle_spelling ws1 w ws2)).
Proof.
  intros H1 Hw H2. unfold re_angle, angle_spelling. cbn [app].
  rewrite lit_i_cons by reflexivity.
  rewrite <- !app_assoc.
  assert (Hclose : first_match (Cat (AtLeast 0 is_space) (lit_i 62))
                     (ws2 ++ [62] ++ rest) = Some (length ws2 + 1)%nat).
  { apply first_match_spaces_cat; [exact H2|reflexivity|reflexivity]. }
  assert (Hname : first_match
                    (Cat (word_i (js "name"))
                         (Cat (AtLeast 0 is_space) (lit_i 62)))
                    (w ++ ws2 ++ [62] ++ rest) =
                  Some (4 + (length ws2 + 1))%nat).
  { apply first_match_cat with (l := []); [now apply matches_name_i|].
    pose proof (name_i_letters _ Hw) as (x1 & x2 & x3 & x4 & -> & _).
    exact Hclose. }
  assert (Hc : match w ++ ws2 ++ [62] ++ rest with
               | c :: _ => is_space c = false
               | [] => True
               end).
  { pose proof (name_i_letters _ Hw)
      as (x1 & x2 & x3 & x4 & -> & _ & _ & _ & _ & F1 & _).
    cbn [app]. apply (letter_not x1 _ F1). lia. }
  rewrite (first_match_spaces_cat _ ws1 _ _ H1 Hc Hname).
  cbn [option_map]. f_equal. cbn [length].
  pose proof (name_i_letters _ Hw) as (x1 & x2 & x3 & x4 & -> & _).
  rewrite !length_app. cbn [length]. lia.
Qed.

Lemma angle_spelling_chars ws1 w ws2 x :
  forallb is_space ws1 = true -> name_i w = true ->
  forallb is_space ws2 = true ->
  In x (angle_spelling ws1 w ws2) ->
  (91 =? x) = false /\ (123 =? x) = false.
Proof.
  intros H1 Hw H2 Hx. unfold angle_spelling in Hx.
  rewrite forallb_forall in H1, H2.
  assert (Hsp : is_space x = true -> (91 =? x) = false /\ (123 =? x) = false).
  { intros H. apply is_space_no_opener, opener_false in H. tauto. }
  destruct Hx as [<-|Hx]; [now split|].
  apply in_app_or in Hx. destruct Hx as [Hx|Hx]; [auto|].
  apply in_app_or in Hx. destruct Hx as [Hx|Hx].
  - apply name_i_letters in Hw.
    destruct Hw as (x1 & x2 & x3 & x4 & -> & _ & _ & _ & _ & F1 & F2 & F3 & F4).
    assert (Hop : opener x = false).
    { destruct Hx as [<-|[<-|[<-|[<-|[]]]]];
        [apply (letter_not _ _ F1)|apply (letter_not _ _ F2)
        |apply (letter_not _ _ F3)|apply (letter_not _ _ F4)]; lia. }
    apply opener_false in Hop. tauto.
  - apply in_app_or in Hx. destruct Hx as [Hx|[<-|[]]]; [auto|now split].
Qed.

Lemma brace_spelling_chars p x :
  existsb (str_eqb p) brace_spellings = true -> In x p ->
  (91 =? x) = false /\ (60 =? x) = false.
Proof.
  unfold brace_spellings. cbn [existsb]. intros H Hx.
  repeat (apply orb_true_iff in H; destruct H as [H|H];
          [apply str_eqb_eq in H; subst p;
           cbn in Hx; repeat (destruct Hx as [<-|Hx]; [now split|]);
           destruct Hx|]).
  discriminate.
Qed.

(** *** The whole placeholder stage on a message cut into pieces *)

Lemma view_square_ok fallback pcs :
  forallb piece_ok pcs = true ->
  Forall (seg_ok re_square (N.eqb 91)) (List.map (view_square fallback) pcs).
Proof.
  intros H. rewrite forallb_forall in H. apply Forall_forall.
  intros sg Hsg. apply in_map_iff in Hsg. destruct Hsg as (pc & <- & Hpc).
  apply H in Hpc. destruct pc as [t|p|p|ws1 w ws2]; cbn in Hpc |- *.
  - intros x Hx. now apply (text_no_opener _ _ Hpc), opener_false in Hx.
  - destruct (spelling_length square_spellings p Hpc) as (k & Hk).
    { unfold square_spellings. repeat constructor; discriminate. }
    exists k. split; [exact Hk|]. intros rest. rewrite <- Hk.
    now apply square_hit.
  - intros x Hx. now apply (brace_spelling_chars _ _ Hpc) in Hx.
  - apply andb_true_iff in Hpc. destruct Hpc as [Hpc H2].
    apply andb_true_iff in Hpc. destruct Hpc as [H1 Hw].
    intros x Hx. now apply (angle_spelling_chars _ _ _ _ H1 Hw H2) in Hx.
Qed.

Lemma view_brace_ok fallback pcs :
  (forall x, In x fallback -> opener x = false) ->
  forallb piece_ok pcs = true ->
  Forall (seg_ok re_brace (N.eqb 123)) (List.map (view_brace fallback) pcs).
Proof.
  intros Hfb H. rewrite forallb_forall in H. apply Forall_forall.
  intros sg Hsg. apply in_map_iff in Hsg. destruct Hsg as (pc & <- & Hpc).
  apply H in Hpc. destruct pc as [t|p|p|ws1 w ws2]; cbn in Hpc |- *.
  - intros x Hx. now apply (text_no_opener _ _ Hpc), opener_false in Hx.
  - intros x Hx. now apply Hfb, opener_false in Hx.
  - destruct (spelling_length brace_spellings p Hpc) as (k & Hk).
    { unfold brace_spellings. repeat constructor; discriminate. }
    exists k. split; [exact Hk|]. intros rest. rewrite <- Hk.
    now apply brace_hit.
  - apply andb_true_iff in Hpc. destruct Hpc as [Hpc H2].
    apply andb_true_iff in Hpc. destruct Hpc as [H1 Hw].
    intros x Hx. now apply (angle_spelling_chars _ _ _ _ H1 Hw H2) in Hx.
Qed.

Lemma view_angle_ok fallback pcs :
  (forall x, In x fallback -> opener x = false) ->
  forallb piece_ok pcs = true ->
  Forall (seg_ok re_angle (N.eqb 60)) (List.map (view_angle fallback) pcs).
Proof.
  intros Hfb H. rewrite forallb_forall in H. apply Forall_forall.
  intros sg Hsg. apply in_map_iff in Hsg. destruct Hsg as (pc & <- & Hpc).
  apply H in Hpc. destruct pc as [t|p|p|ws1 w ws2]; cbn in Hpc |- *.
  - intros x Hx. now apply (text_no_opener _ _ Hpc), opener_false in Hx.
  - intros x Hx. now apply Hfb, opener_false in Hx.
  - intros x Hx. now apply Hfb, opener_false in Hx.
  - apply andb_true_iff in Hpc. destruct Hpc as [Hpc H2].
    apply andb_true_iff in Hpc. destruct Hpc as [H1 Hw].
    eexists. split; [reflexivity|]. intros rest.
    apply (angle_hit _ _ _ rest H1 Hw H2).
Qed.

Lemma flat_map_view (A : Type) (f : A -> seg) (g : seg -> str) (l : list A) :
  flat_map g (List.map f l) = flat_map (fun a => g (f a)) l.
Proof. induction l as [|a l IH]; simpl; [reflexivity|now rewrite IH]. Qed.

Lemma replacePlaceholders_pieces fallback pcs :
  plain_name fallback = true ->
  forallb piece_ok pcs = true ->
  replacePlaceholders fallback (flat_map source pcs) =
  flat_map (result fallback) pcs.
Proof.
  intros Hfb Hok. apply plain_name_spec in Hfb. destruct Hfb as [Hd Hop].
  unfold replacePlaceholders, replace.
  assert (E1 : flat_map source pcs =
               flat_map seg_src (List.map (view_square fallback) pcs)).
  { rewrite flat_map_view. apply flat_map_ext. now intros []. }
  rewrite E1, (replace_segs _ _ _ _ square_opens Hd (view_square_ok _ _ Hok)).
  assert (E2 : flat_map (seg_out fallback) (List.map (view_square fallback) pcs) =
               flat_map seg_src (List.map (view_brace fallback) pcs)).
  { rewrite !flat_map_view. apply flat_map_ext. now intros []. }
  rewrite E2, (replace_segs _ _ _ _ brace_opens Hd (view_brace_ok _ _ Hop Hok)).
  assert (E3 : flat_map (seg_out fallback) (List.map (view_brace fallback) pcs) =
               flat_map seg_src (List.map (view_angle fallback) pcs)).
  { rewrite !flat_map_view. apply flat_map_ext. now intros []. }
  rewrite E3, (replace_segs _ _ _ _ angle_opens Hd (view_angle_ok _ _ Hop Hok)).
  rewrite flat_map_view. apply flat_map_ext. now intros [].
Qed.

End Placeholders.

(* ================================================================== *)
(** ** Facts about the background loop *)
(* ================================================================== *)

Module JobFacts.
Import JS Job JobTerms.
Local Open Scope Z_scope.

Lemma kept_refl s : kept s s.
Proof. repeat split. Qed.

Lemma kept_trans s1 s2 s3 : kept s1 s2 -> kept s2 s3 -> kept s1 s3.
Proof. unfold kept. intuition congruence. Qed.

Lemma finalize_kept t s : kept s (snd (finalize t s)).
Proof. repeat split. Qed.

Lemma rotate_kept t s : kept s (snd (rotate t s)).
Proof. unfold rotate. destruct (0 <? length (proxyList t))%nat; repeat split. Qed.

Lemma loop_top_kept i t s : kept s (snd (loop_top i t s)).
Proof.
  unfold loop_top. destruct (i <? length (usernames t))%nat; [|apply finalize_kept].
  destruct (negb (running s)); [apply finalize_kept|].
  pose proof (rotate_kept t
    (set_currentUsername (nth_error (usernames t) i) (set_index (Z.of_nat i) s)))
    as H.
  destruct (rotate t _) as [t' s']. cbn in *. exact H.
Qed.

Lemma countdown_kept i target now t s :
  kept s (snd (countdown i target now t s)).
Proof.
  unfold countdown. destruct ((now <? target) && running s);
    [apply kept_refl|apply loop_top_kept].
Qed.

Lemma pace_kept i a t s : kept s (snd (pace i a t s)).
Proof.
  unfold pace. destruct (Z.of_nat i <? Z.of_nat (length (usernames t)) - 1).
  - eapply kept_trans; [|apply countdown_kept]. repeat split.
  - apply loop_top_kept.
Qed.

(** What one resumption does to the counters and to [lastError]. *)
Lemma resume_effect ev a t s :
  let s' := snd (resume ev a t s) in
  total s' = total s /\
  match outcome (pc t) ev with
  | Some None =>
      sent s' = sent s + 1 /\ failed s' = failed s /\ lastError s' = None
  | Some (Some e) =>
      failed s' = failed s + 1 /\ sent s' = sent s /\
      lastError s' = Some (errorText e)
  | None => sent s' = sent s /\ failed s' = failed s
  end.
Proof.
  assert (Hs : forall i, kept (set_lastError None (set_sent (sent s + 1) s))
                              (snd (succeed i a t s)))
    by (intros; apply pace_kept).
  assert (Hf : forall e i,
             kept (set_lastError (Some (errorText e))
                                 (set_failed (failed s + 1) s))
                  (snd (fail e i a t s)))
    by (intros; apply pace_kept).
  unfold resume, outcome.
  destruct (pc t) as [i|i p name|i p message|i target|];
    destruct ev as [[u|e]|x|[u|e]|]; cbn -[Z.add];
    try (repeat split; fail);
    try (destruct (Hs i) as (? & ? & ? & ?); cbn in *; repeat split; congruence);
    try (destruct (Hf e i) as (? & ? & ? & ?); cbn in *; repeat split; congruence).
  - destruct (openrouterGenerate x) as [raw|e]; cbn -[Z.add].
    + repeat split.
    + destruct (Hf e i) as (? & ? & ? & ?); cbn in *; repeat split; congruence.
  - destruct (countdown_kept i target (clock_check a) t s) as (? & ? & ? & ?).
    repeat split; assumption.
Qed.

Lemma step_total m x : total (snd (step m x)) = total (snd m).
Proof.
  destruct x as [ev a|]; [|reflexivity].
  apply (resume_effect ev a (fst m) (snd m)).
Qed.


(** *** A run that nobody interrupts *)

Lemma rotate_fields t s :
  usernames (fst (rotate t s)) = usernames t /\
  pc (fst (rotate t s)) = pc t /\
  running (snd (rotate t s)) = running s /\
  index (snd (rotate t s)) = index s /\
  nextSendAt (snd (rotate t s)) = nextSendAt s /\
  lastStep (snd (rotate t s)) = lastStep s.
Proof.
  unfold rotate. destruct (0 <? length (proxyList t))%nat; repeat split.
Qed.






(** Every job can run to its end: here with no recipient resolved and
    every wait over at its first tick. *)
Lemma run_cons x xs m : run (x :: xs) m = run xs (step m x).
Proof. reflexivity. Qed.

Lemma pace_quiet_waits i t s :
  running s = true ->
  Z.of_nat i < Z.of_nat (length (usernames t)) - 1 ->
  pace i quiet t s =
  (set_pc (AwaitDelay i 3780000) t, set_nextSendAt (Some 3780000) s).
Proof.
  intros Hr Hlt. unfold pace.
  destruct (Z.ltb_spec (Z.of_nat i) (Z.of_nat (length (usernames t)) - 1));
    [|lia].
  cbv zeta. unfold countdown. cbn [running set_nextSendAt]. rewrite Hr.
  reflexivity.
Qed.

Lemma pace_last i a t s :
  Z.of_nat (length (usernames t)) - 1 <= Z.of_nat i ->
  pace i a t s = loop_top (S i) t s.
Proof.
  intros Hge. unfold pace.
  destruct (Z.ltb_spec (Z.of_nat i) (Z.of_nat (length (usernames t)) - 1));
    [lia|reflexivity].
Qed.

Lemma loop_top_past i t s :
  (length (usernames t) <= i)%nat -> loop_top i t s = finalize t s.
Proof.
  intros Hge. unfold loop_top.
  destruct (Nat.ltb_spec i (length (usernames t))); [lia|reflexivity].
Qed.

Lemma loop_top_turn i t s :
  running s = true -> (i < length (usernames t))%nat ->
  exists t1 s1,
    loop_top i t s = (t1, s1) /\ pc t1 = AwaitResolve i /\
    usernames t1 = usernames t /\ running s1 = true.
Proof.
  intros Hr Hlt. unfold loop_top.
  destruct (Nat.ltb_spec i (length (usernames t))); [|lia].
  rewrite Hr. cbn [negb].
  pose proof (rotate_fields t
    (set_currentUsername (nth_error (usernames t) i) (set_index (Z.of_nat i) s)))
    as (R1 & _ & R3 & _).
  destruct (rotate t _) as [t1 s1]. cbn in R1, R3.
  eexists _, _. split; [reflexivity|]. cbn.
  split; [reflexivity|]. split; [exact R1|]. now rewrite R3.
Qed.

Lemma turns_finish k : forall i t s,
  running s = true ->
  (i + k)%nat = length (usernames t) ->
  pc (fst (run (turns k) (loop_top i t s))) = Finished.
Proof.
  induction k as [|k IH]; intros i t s Hr Hn.
  - rewrite loop_top_past by lia. reflexivity.
  - change (turns (S k)) with
      (Resume unknown quiet :: Resume Ticked later :: turns k).
    destruct (loop_top_turn i t s Hr) as (t1 & s1 & -> & Hpc & Hu & Hr1);
      [lia|].
    rewrite <- Hu in Hn.
    rewrite run_cons. cbn [step fst snd]. unfold resume at 1. rewrite Hpc.
    cbn [unknown]. unfold fail.
    destruct (Z.ltb_spec (Z.of_nat i) (Z.of_nat (length (usernames t1)) - 1))
      as [Hlt|Hge].
    + rewrite pace_quiet_waits by (cbn; assumption).
      rewrite run_cons. cbn [step fst snd]. unfold resume. cbn [pc set_pc].
      unfold countdown.
      change (clock_check later <? 3780000) with false. cbn [andb].
      apply IH; [cbn; assumption|]. cbn [usernames set_pc]. lia.
    + rewrite pace_last by exact Hge.
      rewrite loop_top_past by lia.
      assert (Hk : k = O) by lia. subst k. reflexivity.
Qed.

Lemma every_job_can_finish igUsername names proxies agent :
  exists xs,
    forallb is_resume xs = true /\
    pc (fst (run xs (launch igUsername names proxies agent))) = Finished.
Proof.
  exists (turns (length names)). split.
  - unfold turns. induction (length names) as [|n IH]; [reflexivity|exact IH].
  - unfold launch. now apply turns_finish.
Qed.

(** *** Proxy rotation along a run *)

Lemma loop_top_rotation proxies i t s :
  proxyList t = proxies ->
  proxyIndex t = match proxies with [] => O | _ :: _ => i end ->
  rotation proxies (loop_top i t s).
Proof.
  intros Hp Hi.
  assert (Hfin : rotation proxies (finalize t s)).
  { split; [exact Hp|]. cbn. intros ->. exact Hi. }
  unfold loop_top.
  destruct (i <? length (usernames t))%nat; [|exact Hfin].
  destruct (negb (running s)); [exact Hfin|].
  unfold rotate. rewrite Hp, Hi.
  destruct proxies as [|p ps]; cbn -[Nat.modulo nth_error]; repeat split.
Qed.

Lemma countdown_rotation proxies i target now t s :
  rotation proxies (t, s) -> turn (pc t) = Some i ->
  rotation proxies (countdown i target now t s).
Proof.
  intros [Hp H] Ht. cbn [fst snd] in *. rewrite Ht in H.
  destruct H as (H1 & H2 & H3). unfold countdown.
  destruct ((now <? target) && running s).
  - split; [exact Hp|]. cbn. repeat split; assumption.
  - apply loop_top_rotation; [exact Hp|].
    rewrite H3. now destruct proxies.
Qed.

Lemma pace_rotation proxies i a t s :
  proxyList t = proxies -> turn (pc t) = Some i ->
  currentProxy s = assigned proxies i ->
  proxyUrl t = assigned proxies i ->
  proxyIndex t = match proxies with [] => O | _ :: _ => S i end ->
  rotation proxies (pace i a t s).
Proof.
  intros Hp Ht H1 H2 H3. unfold pace.
  destruct (Z.of_nat i <? Z.of_nat (length (usernames t)) - 1).
  - cbv zeta. apply countdown_rotation; [|exact Ht].
    split; [exact Hp|]. cbn [fst snd]. rewrite Ht. cbn. tauto.
  - apply loop_top_rotation; [exact Hp|]. rewrite H3. now destruct proxies.
Qed.

Lemma resume_rotation proxies ev a t s :
  rotation proxies (t, s) -> rotation proxies (resume ev a t s).
Proof.
  intros [Hp H]. cbn [fst snd] in *. unfold resume.
  destruct (pc t) as [i|i p name|i p message|i target|] eqn:Epc;
    cbn [turn] in H;
    destruct ev as [[u|e]|x|[u|e]|];
    try (split; cbn [fst snd]; [exact Hp|rewrite Epc; exact H]);
    try destruct H as (H1 & H2 & H3);
    try (unfold fail, succeed; apply pace_rotation; cbn;
         try rewrite Epc; try assumption; reflexivity);
    try (split; cbn; [exact Hp|repeat split; assumption]).
  - destruct (openrouterGenerate x) as [raw|e].
    + split; cbn; [exact Hp|repeat split; assumption].
    + unfold fail. apply pace_rotation; cbn; try rewrite Epc;
        try assumption; reflexivity.
  - apply countdown_rotation; [|now rewrite Epc].
    split; cbn [fst snd]; [exact Hp|]. rewrite Epc. cbn. tauto.
Qed.

Lemma run_rotation proxies xs : forall m,
  rotation proxies m -> rotation proxies (run xs m).
Proof.
  induction xs as [|x xs IH]; intros m Hm; [exact Hm|].
  cbn [run fold_left]. apply IH. destruct m as [t s].
  destruct x as [ev a|]; [now apply resume_rotation|].
  destruct Hm as [Hp H]. split; [exact Hp|exact H].
Qed.

Lemma launch_rotation igUsername names proxies agent :
  rotation proxies (launch igUsername names proxies agent).
Proof.
  unfold launch. apply loop_top_rotation; [reflexivity|].
  now destruct proxies.
Qed.

(** *** [nextSendAt] along a run *)

Lemma loop_top_timetable w i t s :
  match i with
  | O => nextSendAt s = None
  | S _ => nextSendAt s = w /\ w <> None
  end ->
  timetable w (loop_top i t s).
Proof.
  intros H. unfold loop_top.
  destruct (i <? length (usernames t))%nat; [|reflexivity].
  destruct (negb (running s)); [reflexivity|].
  pose proof (rotate_fields t
    (set_currentUsername (nth_error (usernames t) i) (set_index (Z.of_nat i) s)))
    as (_ & _ & _ & _ & R & _).
  destruct (rotate t _) as [t' s']. unfold timetable. cbn in R |- *.
  rewrite R. exact H.
Qed.

Lemma countdown_timetable i target now t s :
  nextSendAt s = Some target ->
  timetable (Some target) (countdown i target now t s).
Proof.
  intros H. unfold countdown. destruct ((now <? target) && running s).
  - split; [exact H|reflexivity].
  - apply loop_top_timetable. split; [exact H|discriminate].
Qed.

Lemma pace_timetable i a t s :
  timetable (Some (planned a)) (pace i a t s).
Proof.
  unfold pace.
  destruct (Z.ltb_spec (Z.of_nat i) (Z.of_nat (length (usernames t)) - 1))
    as [Hlt|Hge].
  - cbv zeta. now apply countdown_timetable.
  - unfold loop_top.
    destruct (Nat.ltb_spec (S i) (length (usernames t))); [lia|reflexivity].
Qed.

Lemma resume_timetable w ev a t s :
  timetable w (t, s) ->
  timetable (match outcome (pc t) ev with
             | Some _ => Some (planned a)
             | None => w
             end) (resume ev a t s).
Proof.
  unfold timetable at 1. cbn [fst snd]. intros H. unfold resume, outcome.
  destruct (pc t) as [i|i p name|i p message|i target|] eqn:Epc;
    destruct ev as [[u|e]|x|[u|e]|];
    try (unfold timetable; cbn [fst snd]; rewrite Epc; exact H);
    try (unfold fail, succeed; apply pace_timetable);
    try (unfold timetable; cbn; exact H).
  - destruct (openrouterGenerate x) as [raw|e].
    + unfold timetable; cbn; exact H.
    + unfold fail. apply pace_timetable.
  - destruct H as [H ->]. now apply countdown_timetable.
Qed.

Lemma run_timetable xs : forall w m,
  timetable w m -> timetable (last_planned w xs m) (run xs m).
Proof.
  induction xs as [|x xs IH]; intros w m Hm; [exact Hm|].
  cbn [run fold_left last_planned]. apply IH. destruct m as [t s].
  destruct x as [ev a|]; [now apply resume_timetable|exact Hm].
Qed.

Lemma launch_timetable igUsername names proxies agent :
  timetable None (launch igUsername names proxies agent).
Proof. unfold launch. now apply loop_top_timetable. Qed.

End JobFacts.

(* ================================================================== *)
(** ** Facts about [lastStep] and about the server *)
(* ================================================================== *)

Module AppFacts.
Import JS Job App JobTerms JobFacts.
Local Open Scope Z_scope.

Lemma written_resolve : In (js "resolve_user_pk") steps_written.
Proof. right. left. reflexivity. Qed.

Lemma written_generate : In (js "generate_message") steps_written.
Proof. right. right. left. reflexivity. Qed.

Lemma written_send : In (js "send_dm") steps_written.
Proof. right. right. right. left. reflexivity. Qed.

Lemma loop_top_lastStep i t s :
  lastStep_in steps_written s ->
  lastStep_in steps_written (snd (loop_top i t s)).
Proof.
  intros H. unfold loop_top.
  destruct (i <? length (usernames t))%nat; [|exact H].
  destruct (negb (running s)); [exact H|].
  destruct (rotate t _) as [t' s']. exact written_resolve.
Qed.

Lemma countdown_lastStep i target now t s :
  lastStep_in steps_written s ->
  lastStep_in steps_written (snd (countdown i target now t s)).
Proof.
  intros H. unfold countdown. destruct ((now <? target) && running s);
    [exact H|now apply loop_top_lastStep].
Qed.

Lemma pace_lastStep i a t s :
  lastStep_in steps_written s ->
  lastStep_in steps_written (snd (pace i a t s)).
Proof.
  intros H. unfold pace.
  destruct (Z.of_nat i <? Z.of_nat (length (usernames t)) - 1).
  - cbv zeta. now apply countdown_lastStep.
  - now apply loop_top_lastStep.
Qed.

Lemma resume_lastStep ev a t s :
  lastStep_in steps_written s ->
  lastStep_in steps_written (snd (resume ev a t s)).
Proof.
  intros H. unfold resume.
  destruct (pc t) as [i|i p name|i p message|i target|];
    destruct ev as [[u|e]|x|[u|e]|];
    try exact H;
    try (unfold fail, succeed; apply pace_lastStep; exact H);
    try exact written_generate.
  - destruct (openrouterGenerate x) as [raw|e].
    + exact written_send.
    + unfold fail. apply pace_lastStep. exact H.
  - now apply countdown_lastStep.
Qed.

Lemma launch_lastStep igUsername names proxies agent :
  lastStep_in steps_written (snd (launch igUsername names proxies agent)).
Proof. unfold launch. apply loop_top_lastStep. left. reflexivity. Qed.

Lemma serve_lastStep parseURL key sv h :
  lastStep_in steps_written (state sv) ->
  lastStep_in steps_written (state (fst (serve parseURL key sv h))).
Proof.
  intros H. destruct h as [method path b now|k r|k ev a]; cbn [serve].
  - destruct (route method path) as [[|]|]; try exact H.
    unfold handleStart.
    repeat match goal with
           | |- context [if ?c then _ else _] => destruct c
           end; exact H.
  - unfold handleLogin. destruct (nth_error (logins sv) k) as [l|]; [|exact H].
    destruct r as [u|e]; [|exact H].
    pose proof (launch_lastStep (loginUser l) (loginUsernames l)
                  (validProxies parseURL (loginProxies l)) (loginUserAgent l)) as L.
    destruct (launch _ _ _ _) as [t s]. exact L.
  - destruct (nth_error (loops sv) k) as [t|]; [|exact H].
    pose proof (resume_lastStep ev a t (state sv) H) as R.
    destruct (resume ev a t (state sv)) as [t' s']. exact R.
Qed.

Lemma history_lastStep parseURL key hs : forall sv,
  lastStep_in steps_written (state sv) ->
  lastStep_in steps_written (state (history parseURL key hs sv)).
Proof.
  induction hs as [|h hs IH]; intros sv H; [exact H|].
  cbn [history fold_left]. apply IH. now apply serve_lastStep.
Qed.

(** No request changes the job state: only a settled login and the
    background task write it. *)
Lemma http_keeps_state parseURL key sv method path b now :
  state (fst (serve parseURL key sv (Http method path b now))) = state sv.
Proof.
  cbn [serve]. destruct (route method path) as [[|]|]; try reflexivity.
  unfold handleStart.
  repeat match goal with
         | |- context [if ?c then _ else _] => destruct c
         end; reflexivity.
Qed.



End AppFacts.

(* ================================================================== *)
(** ** Further facts about the background loop *)
(* ================================================================== *)

Module LoopFacts.
Import JS Job App JobTerms ServerTerms JobFacts AppFacts.
Local Open Scope Z_scope.

(** [rotate] writes the proxy and the cursor only. *)
Lemma rotate_others t s :
  usernames (fst (rotate t s)) = usernames t /\
  proxyList (fst (rotate t s)) = proxyList t /\
  pc (fst (rotate t s)) = pc t /\
  exists v, snd (rotate t s) = set_currentProxy v s.
Proof.
  unfold rotate. destruct (0 <? length (proxyList t))%nat; repeat split;
    eexists; reflexivity.
Qed.












(** *** Once [running] is cleared *)

Lemma loop_top_stopped i t s :
  running s = false -> loop_top i t s = finalize t s.
Proof.
  intros Hr. unfold loop_top. rewrite Hr.
  now destruct (i <? length (usernames t))%nat.
Qed.

Lemma pace_stopped i a t s :
  running s = false ->
  pc (fst (pace i a t s)) = Finished /\ running (snd (pace i a t s)) = false.
Proof.
  intros Hr. unfold pace.
  destruct (Z.of_nat i <? Z.of_nat (length (usernames t)) - 1).
  - cbv zeta. unfold countdown. cbn [running set_nextSendAt]. rewrite Hr.
    rewrite andb_false_r. rewrite loop_top_stopped by exact Hr. now split.
  - rewrite loop_top_stopped by exact Hr. now split.
Qed.

Lemma resume_stopped ev a t s :
  running s = false ->
  running (snd (resume ev a t s)) = false /\
  (pc (fst (resume ev a t s)) = Finished \/
   (turn (pc (fst (resume ev a t s))) = turn (pc t) /\
    outcome (pc t) ev = None)).
Proof.
  intros Hr.
  assert (Hs : forall i, pc (fst (succeed i a t s)) = Finished /\
                         running (snd (succeed i a t s)) = false)
    by (intros; apply pace_stopped; exact Hr).
  assert (Hf : forall e i, pc (fst (fail e i a t s)) = Finished /\
                           running (snd (fail e i a t s)) = false)
    by (intros; apply pace_stopped; exact Hr).
  unfold resume, outcome.
  destruct (pc t) as [i|i p name|i p message|i target|] eqn:Epc;
    destruct ev as [[u|e]|x|[u|e]|]; cbn [fst snd];
    try (split; [exact Hr|right; split; [now rewrite Epc|reflexivity]]);
    try (destruct (Hs i); split; [assumption|left; assumption]);
    try (destruct (Hf e i); split; [assumption|left; assumption]).
  - split; [exact Hr|right; split; reflexivity].
  - destruct (openrouterGenerate x) as [raw|e]; cbn [fst snd].
    + split; [exact Hr|right; split; reflexivity].
    + destruct (Hf e i); split; [assumption|left; assumption].
  - unfold countdown. rewrite Hr, andb_false_r.
    rewrite loop_top_stopped by exact Hr. split; [reflexivity|now left].
Qed.

Lemma finished_stays xs : forall t s,
  pc t = Finished ->
  pc (fst (run xs (t, s))) = Finished /\ outcomes xs (t, s) = [] /\
  (running s = false -> run xs (t, s) = (t, s)).
Proof.
  induction xs as [|x xs IH]; intros t s Hp;
    [repeat split; try assumption; reflexivity|].
  rewrite !run_cons. cbn [outcomes].
  destruct x as [ev a|]; cbn [step fst snd].
  - unfold resume. rewrite Hp.
    destruct (IH t s Hp) as (I1 & I2 & I3).
    destruct ev as [[u|e]|y|[u|e]|]; cbn [outcome app]; repeat split;
      assumption.
  - destruct (IH t (set_running false s) Hp) as (I1 & I2 & I3).
    repeat split; try assumption.
    intros Hr.
    assert (E : set_running false s = s).
    { clear - Hr. destruct s as [r ? ? ? ? ? ? ? ? ? ? ?].
      cbn in Hr. now subst r. }
    rewrite E in *. auto.
Qed.

Lemma run_stopped xs : forall t s,
  running s = false ->
  running (snd (run xs (t, s))) = false /\
  (pc (fst (run xs (t, s))) = Finished \/
   turn (pc (fst (run xs (t, s)))) = turn (pc t)) /\
  (length (outcomes xs (t, s)) <= 1)%nat.
Proof.
  induction xs as [|x xs IH]; intros t s Hr.
  - cbn. repeat split; auto.
  - rewrite run_cons. cbn [outcomes].
    destruct x as [ev a|]; cbn [step fst snd].
    + destruct (resume_stopped ev a t s Hr) as [R1 R2].
      destruct (resume ev a t s) as [t' s'] eqn:E. cbn [fst snd] in R1, R2.
      destruct R2 as [Hfin|[Hturn Hout]].
      * destruct (finished_stays xs t' s' Hfin) as (F1 & F2 & F3).
        rewrite (F3 R1), F2. cbn [fst snd].
        repeat split; [assumption|now left|].
        rewrite app_nil_r. destruct (outcome (pc t) ev); cbn; lia.
      * destruct (IH t' s' R1) as (I1 & I2 & I3). rewrite Hout.
        repeat split; [assumption| |exact I3].
        destruct I2 as [I2|I2]; [now left|right; congruence].
    + destruct (IH t (set_running false s) eq_refl) as (I1 & I2 & I3).
      repeat split; assumption.
Qed.

End LoopFacts.

(* ================================================================== *)
(** ** Further facts about the server *)
(* ================================================================== *)

Module ServerFacts.
Import JS Job App JobTerms ServerTerms JobFacts AppFacts LoopFacts.
Local Open Scope Z_scope.

(** *** The proxies in use *)

Lemma finalize_drawn proxies t s :
  drawn_from proxies (t, s) -> drawn_from proxies (finalize t s).
Proof. intros H. exact H. Qed.

Lemma loop_top_drawn proxies i t s :
  drawn_from proxies (t, s) -> drawn_from proxies (loop_top i t s).
Proof.
  intros H. unfold loop_top.
  destruct (i <? length (usernames t))%nat; [|exact H].
  destruct (negb (running s)); [exact H|].
  destruct H as (Hp & Hc & Hu). cbn [fst snd] in *. subst proxies.
  unfold rotate.
  destruct (0 <? length (proxyList t))%nat.
  - unfold drawn_from. cbn. split; [reflexivity|].
    destruct (nth_error (proxyList t)
                (proxyIndex t mod length (proxyList t))) as [x|] eqn:E;
      [|now split].
    apply nth_error_In in E. now split.
  - unfold drawn_from. cbn. now repeat split.
Qed.

Lemma countdown_drawn proxies i target now t s :
  drawn_from proxies (t, s) ->
  drawn_from proxies (countdown i target now t s).
Proof.
  intros H. unfold countdown.
  destruct ((now <? target) && running s);
    [exact H|now apply loop_top_drawn].
Qed.

Lemma pace_drawn proxies i a t s :
  drawn_from proxies (t, s) -> drawn_from proxies (pace i a t s).
Proof.
  intros H. unfold pace.
  destruct (Z.of_nat i <? Z.of_nat (length (usernames t)) - 1).
  - cbv zeta. apply countdown_drawn. exact H.
  - now apply loop_top_drawn.
Qed.

Lemma resume_drawn proxies ev a t s :
  drawn_from proxies (t, s) -> drawn_from proxies (resume ev a t s).
Proof.
  intros H. unfold resume.
  destruct (pc t) as [i|i p name|i p message|i target|];
    destruct ev as [[u|e]|x|[u|e]|];
    try exact H;
    try (unfold fail, succeed; apply pace_drawn; exact H).
  - destruct (openrouterGenerate x) as [raw|e]; [exact H|].
    unfold fail. apply pace_drawn. exact H.
  - now apply countdown_drawn.
Qed.

Lemma run_drawn proxies xs : forall m,
  drawn_from proxies m -> drawn_from proxies (run xs m).
Proof.
  induction xs as [|x xs IH]; intros m Hm; [exact Hm|].
  rewrite run_cons. apply IH. destruct m as [t s].
  destruct x as [ev a|]; [now apply resume_drawn|exact Hm].
Qed.

Lemma launch_drawn igUsername names proxies agent :
  drawn_from proxies (launch igUsername names proxies agent).
Proof. unfold launch. apply loop_top_drawn. now repeat split. Qed.

Lemma validProxies_in parseURL field x :
  In x (validProxies parseURL field) ->
  isValidProxy parseURL x = true /\
  exists l, field = Some l /\ In (JString x) l.
Proof.
  destruct field as [l|]; cbn [validProxies]; [|intros []].
  intros H. apply in_flat_map in H. destruct H as ([y|] & Hin & Hx).
  - destruct (isValidProxy parseURL y) eqn:E; [|destruct Hx].
    destruct Hx as [<-|[]]. split; [exact E|]. now exists l.
  - destruct Hx.
Qed.

Lemma isValidProxy_spec parseURL x :
  isValidProxy parseURL x = true ->
  exists u, parseURL x = Some u /\
    (protocol u = js "http:" \/ protocol u = js "https:") /\
    hostname u <> [] /\ port u <> [].
Proof.
  unfold isValidProxy. destruct (parseURL x) as [u|]; [|discriminate].
  intros H. apply andb_true_iff in H. destruct H as [H Hport].
  apply andb_true_iff in H. destruct H as [Hproto Hhost].
  exists u. split; [reflexivity|]. repeat split.
  - apply orb_true_iff in Hproto.
    destruct Hproto as [E|E]; apply Placeholders.str_eqb_eq in E; auto.
  - destruct (hostname u); [discriminate|discriminate].
  - destruct (port u); [discriminate|discriminate].
Qed.

(** *** What a request can see in [lastStep] *)

Lemma seen_resolve : In (js "resolve_user_pk") steps_seen.
Proof. left. reflexivity. Qed.

Lemma seen_generate : In (js "generate_message") steps_seen.
Proof. right. left. reflexivity. Qed.

Lemma seen_send : In (js "send_dm") steps_seen.
Proof. right. right. left. reflexivity. Qed.

Lemma loop_top_seen i t s :
  lastStep_in steps_seen s -> lastStep_in steps_seen (snd (loop_top i t s)).
Proof.
  intros H. unfold loop_top.
  destruct (i <? length (usernames t))%nat; [|exact H].
  destruct (negb (running s)); [exact H|].
  destruct (rotate t _) as [t' s']. exact seen_resolve.
Qed.

Lemma countdown_seen i target now t s :
  lastStep_in steps_seen s ->
  lastStep_in steps_seen (snd (countdown i target now t s)).
Proof.
  intros H. unfold countdown. destruct ((now <? target) && running s);
    [exact H|now apply loop_top_seen].
Qed.

Lemma pace_seen i a t s :
  lastStep_in steps_seen s -> lastStep_in steps_seen (snd (pace i a t s)).
Proof.
  intros H. unfold pace.
  destruct (Z.of_nat i <? Z.of_nat (length (usernames t)) - 1).
  - cbv zeta. now apply countdown_seen.
  - now apply loop_top_seen.
Qed.

Lemma resume_seen ev a t s :
  lastStep_in steps_seen s ->
  lastStep_in steps_seen (snd (resume ev a t s)).
Proof.
  intros H. unfold resume.
  destruct (pc t) as [i|i p name|i p message|i target|];
    destruct ev as [[u|e]|x|[u|e]|];
    try exact H;
    try (unfold fail, succeed; apply pace_seen; exact H);
    try exact seen_generate.
  - destruct (openrouterGenerate x) as [raw|e].
    + exact seen_send.
    + unfold fail. apply pace_seen. exact H.
  - now apply countdown_seen.
Qed.

Lemma launch_seen igUsername names proxies agent :
  names <> [] ->
  lastStep_in steps_seen (snd (launch igUsername names proxies agent)).
Proof.
  intros Hne. unfold launch, loop_top. cbn [usernames newTask].
  destruct names as [|n names]; [congruence|].
  cbn [length Nat.ltb Nat.leb running fresh negb].
  destruct (rotate _ _) as [t' s']. exact seen_resolve.
Qed.

Lemma remove_nth_Forall (A : Type) (P : A -> Prop) (l : list A) : forall k,
  Forall P l -> Forall P (remove_nth k l).
Proof.
  induction l as [|x l IH]; intros k H; [destruct k; exact H|].
  inversion H as [|? ? Hx Hl]; subst.
  destruct k; cbn; [exact Hl|]. constructor; [exact Hx|now apply IH].
Qed.

(** *** The start request *)

Lemma handleStart_startable key b sv :
  startable key b sv = true ->
  handleStart key b sv =
  (mkServer (state sv)
     (logins sv ++
      [mkLogin (orEmpty (igUsername b))
         (if falsy (userAgentField b) then orEmpty (igUsername b)
          else orEmpty (userAgentField b))
         (match usernamesField b with Some l => l | None => [] end)
         (proxiesField b) (userAgentField b)])
     (loops sv),
   None).
Proof.
  unfold startable, handleStart. intros H.
  repeat (apply andb_true_iff in H; destruct H as [H ?]).
  apply negb_true_iff in H. rewrite H.
  repeat match goal with
         | E : negb _ = true |- _ => apply negb_true_iff in E; rewrite E
         end.
  destruct (usernamesField b) as [[|n l]|]; try discriminate. reflexivity.
Qed.

Lemma handleStart_refused key b sv :
  startable key b sv = false ->
  fst (handleStart key b sv) = sv /\
  exists message, snd (handleStart key b sv) = Some (ErrorReply 400 message).
Proof.
  unfold startable, handleStart. intros H.
  destruct (running (state sv)); [split; [reflexivity|now eexists]|].
  destruct (falsy (igUsername b)); [split; [reflexivity|now eexists]|].
  destruct (falsy (igPassword b)); [split; [reflexivity|now eexists]|].
  destruct (falsy (systemPrompt b)); [split; [reflexivity|now eexists]|].
  destruct (usernamesField b) as [[|n l]|];
    try (split; [reflexivity|now eexists]).
  destruct (falsy key); [split; [reflexivity|now eexists]|].
  discriminate.
Qed.

Lemma handleStart_observable key b sv :
  observable sv -> observable (fst (handleStart key b sv)).
Proof.
  intros [H1 H2]. destruct (startable key b sv) eqn:E.
  - rewrite (handleStart_startable _ _ _ E). split; [exact H1|].
    cbn [fst logins]. apply Forall_app. split; [exact H2|].
    constructor; [|constructor]. cbn [loginUsernames].
    unfold startable in E.
    destruct (usernamesField b) as [[|n l]|]; try discriminate.
    all: rewrite ?andb_false_r, ?andb_false_l in E; discriminate.
  - destruct (handleStart_refused _ _ _ E) as [-> _]. now split.
Qed.

Lemma serve_observable parseURL key sv h :
  observable sv -> observable (fst (serve parseURL key sv h)).
Proof.
  intros H. destruct h as [method path b now|k r|k ev a]; cbn [serve].
  - destruct (route method path) as [[|]|]; try exact H.
    now apply handleStart_observable.
  - destruct H as [H1 H2]. unfold handleLogin.
    destruct (nth_error (logins sv) k) as [l|] eqn:E; [|now split].
    assert (Hl : loginUsernames l <> []).
    { rewrite Forall_forall in H2. apply H2. eapply nth_error_In, E. }
    destruct r as [u|e].
    + pose proof (launch_seen (loginUser l) (loginUsernames l)
                    (validProxies parseURL (loginProxies l))
                    (loginUserAgent l) Hl) as L.
      destruct (launch _ _ _ _) as [t s]. split; [exact L|].
      now apply remove_nth_Forall.
    + split; [exact H1|]. now apply remove_nth_Forall.
  - destruct H as [H1 H2].
    destruct (nth_error (loops sv) k) as [t|]; [|now split].
    pose proof (resume_seen ev a t (state sv) H1) as R.
    destruct (resume ev a t (state sv)) as [t' s']. now split.
Qed.

Lemma history_observable parseURL key hs : forall sv,
  observable sv -> observable (history parseURL key hs sv).
Proof.
  induction hs as [|h hs IH]; intros sv H; [exact H|].
  cbn [history fold_left]. apply IH. now apply serve_observable.
Qed.

(** *** What [lastStep] records *)

Lemma loop_top_stage i t s :
  match stage (pc (fst (loop_top i t s))) with
  | Some st => lastStep (snd (loop_top i t s)) = Some st
  | None => lastStep (snd (loop_top i t s)) = lastStep s
  end.
Proof.
  unfold loop_top.
  destruct (i <? length (usernames t))%nat; [|reflexivity].
  destruct (negb (running s)); [reflexivity|].
  destruct (rotate t _) as [t' s']. reflexivity.
Qed.

Lemma countdown_stage i target now t s :
  match stage (pc (fst (countdown i target now t s))) with
  | Some st => lastStep (snd (countdown i target now t s)) = Some st
  | None => lastStep (snd (countdown i target now t s)) = lastStep s
  end.
Proof.
  unfold countdown. destruct ((now <? target) && running s);
    [reflexivity|apply loop_top_stage].
Qed.

Lemma pace_stage i a t s :
  match stage (pc (fst (pace i a t s))) with
  | Some st => lastStep (snd (pace i a t s)) = Some st
  | None => lastStep (snd (pace i a t s)) = lastStep s
  end.
Proof.
  unfold pace.
  destruct (Z.of_nat i <? Z.of_nat (length (usernames t)) - 1).
  - cbv zeta. apply (countdown_stage i _ (clock_check a) t
                       (set_nextSendAt _ s)).
  - apply loop_top_stage.
Qed.

Lemma resume_stage ev a t s :
  if answers (pc t) ev then
    match stage (pc (fst (resume ev a t s))) with
    | Some st => lastStep (snd (resume ev a t s)) = Some st
    | None => lastStep (snd (resume ev a t s)) = lastStep s
    end
  else resume ev a t s = (t, s).
Proof.
  unfold resume, answers.
  destruct (pc t) as [i|i p name|i p message|i target|];
    destruct ev as [[u|e]|x|[u|e]|];
    try reflexivity;
    try exact (pace_stage i a t _).
  - destruct (openrouterGenerate x) as [raw|e]; [reflexivity|].
    exact (pace_stage i a t _).
  - apply countdown_stage.
Qed.

Lemma serve_attempted parseURL key sv h :
  Forall (fun l => loginUsernames l <> []) (logins sv) ->
  match attempted parseURL sv h with
  | Some st => lastStep (state (fst (serve parseURL key sv h))) = Some st
  | None =>
      lastStep (state (fst (serve parseURL key sv h))) = lastStep (state sv)
  end.
Proof.
  intros Hl. unfold attempted, set_going.
  destruct h as [method path b now|k r|k ev a].
  - now rewrite http_keeps_state.
  - cbn [serve]. unfold handleLogin.
    destruct r as [u|e].
    + destruct (nth_error (logins sv) k) as [l|] eqn:E; [|reflexivity].
      assert (Hne : loginUsernames l <> []).
      { rewrite Forall_forall in Hl. apply Hl. eapply nth_error_In, E. }
      unfold launch, loop_top. cbn [usernames newTask].
      destruct (loginUsernames l) as [|n names]; [congruence|].
      cbn [length Nat.ltb Nat.leb running fresh negb].
      destruct (rotate _ _) as [t' s']. reflexivity.
    + destruct (nth_error (logins sv) k) as [l|]; reflexivity.
  - cbn [serve]. destruct (nth_error (loops sv) k) as [t|]; [|reflexivity].
    pose proof (resume_stage ev a t (state sv)) as R.
    destruct (answers (pc t) ev).
    + destruct (resume ev a t (state sv)) as [t' s']. exact R.
    + rewrite R. reflexivity.
Qed.

(** *** The status request *)

Lemma ceil_thousand x :
  0 < x -> x <= (- ((- x) / 1000)) * 1000 < x + 1000.
Proof.
  intros Hx. pose proof (Z.div_mod (- x) 1000 ltac:(lia)) as E.
  pose proof (Z.mod_pos_bound (- x) 1000 ltac:(lia)) as B. lia.
Qed.

Lemma ceil_thousand_past x : x <= 0 -> - ((- x) / 1000) <= 0.
Proof.
  intros Hx. pose proof (Z.div_mod (- x) 1000 ltac:(lia)) as E.
  pose proof (Z.mod_pos_bound (- x) 1000 ltac:(lia)) as B. lia.
Qed.

End ServerFacts.

(* ================================================================== *)
(** ** Jobs that follow one another on the server *)
(* ================================================================== *)

Module SoloFacts.
Import JS Job App JobTerms ServerTerms JobFacts AppFacts LoopFacts ServerFacts.
Local Open Scope Z_scope.



Lemma update_nth_length (A : Type) (l : list A) : forall k x,
  length (update_nth k x l) = length l.
Proof.
  induction l as [|y l IH]; intros [|k] x; cbn; try reflexivity.
  now rewrite IH.
Qed.











(** *** While [running] is false *)












End SoloFacts.

(* ================================================================== *)
(** ** Facts about the pacing *)
(* ================================================================== *)

Module PacingFacts.
Import SpecFloat.
Import JS Job JobTerms Pacing JobFacts LoopFacts.
Local Open Scope Z_scope.

(** *** Rounding a product of doubles *)


Lemma digits2_bounds m :
  2 ^ (Zpos (digits2_pos m) - 1) <= Zpos m < 2 ^ Zpos (digits2_pos m).
Proof.
  induction m as [m IH|m IH|]; cbn [digits2_pos].
  - rewrite Pos2Z.inj_succ.
    replace (Z.succ (Zpos (digits2_pos m)) - 1) with
      (Z.succ (Zpos (digits2_pos m) - 1)) by lia.
    rewrite !Z.pow_succ_r by lia. lia.
  - rewrite Pos2Z.inj_succ.
    replace (Z.succ (Zpos (digits2_pos m)) - 1) with
      (Z.succ (Zpos (digits2_pos m) - 1)) by lia.
    rewrite !Z.pow_succ_r by lia. lia.
  - cbn. lia.
Qed.

Lemma digits2_le m j : 0 <= j -> Zpos m < 2 ^ j -> Zpos (digits2_pos m) <= j.
Proof.
  intros Hj H. destruct (digits2_bounds m) as [L _].
  destruct (Z.le_gt_cases (Zpos (digits2_pos m)) j) as [|G]; [assumption|].
  exfalso.
  assert (2 ^ j <= 2 ^ (Zpos (digits2_pos m) - 1))
    by (apply Z.pow_le_mono_r; lia).
  lia.
Qed.


Lemma shr_1_spec m r s :
  0 <= m ->
  shr_1 (Build_shr_record m r s) = Build_shr_record (m / 2) (Z.odd m) (r || s).
Proof.
  intros Hm. destruct m as [|p|p]; [reflexivity| |lia].
  destruct p as [p|p|]; cbn [shr_1].
  - f_equal. rewrite Pos2Z.inj_xI.
    apply (Z.div_unique _ 2 (Zpos p) 1); lia.
  - f_equal. rewrite Pos2Z.inj_xO.
    apply (Z.div_unique _ 2 (Zpos p) 0); lia.
  - reflexivity.
Qed.

Lemma iter_pos_nat (A : Type) (f : A -> A) p : forall x,
  iter_pos f p x = Nat.iter (Pos.to_nat p) f x.
Proof.
  induction p as [p IH|p IH|]; intros x; cbn [iter_pos].
  - rewrite !IH, Pos2Nat.inj_xI.
    replace (S (2 * Pos.to_nat p)) with (Pos.to_nat p + S (Pos.to_nat p))%nat
      by lia.
    rewrite Nat.iter_add. f_equal. symmetry. apply Nat.iter_succ_r.
  - rewrite !IH, Pos2Nat.inj_xO.
    replace (2 * Pos.to_nat p)%nat with (Pos.to_nat p + Pos.to_nat p)%nat
      by lia.
    now rewrite Nat.iter_add.
  - reflexivity.
Qed.

(** After [j] shifts: the mantissa is the quotient, and the round bit is
    set only when the remainder is at least half. *)
Lemma shr_iter m0 j :
  0 <= m0 ->
  let mrs := Nat.iter j shr_1 (Build_shr_record m0 false false) in
  shr_m mrs = m0 / 2 ^ Z.of_nat j /\
  (shr_r mrs = true -> 2 * (m0 mod 2 ^ Z.of_nat j) >= 2 ^ Z.of_nat j).
Proof.
  intros Hm. induction j as [|j IH].
  - cbn. split; [now rewrite Z.div_1_r|discriminate].
  - cbn [Nat.iter nat_rect]. fold (Nat.iter j shr_1 (Build_shr_record m0 false false)).
    destruct IH as [I1 I2].
    destruct (Nat.iter j shr_1 (Build_shr_record m0 false false)) as [m r s].
    cbn [shr_m shr_r] in *.
    assert (Hm' : 0 <= m) by (subst m; apply Z.div_pos; lia).
    rewrite shr_1_spec by exact Hm'. cbn [shr_m shr_r].
    rewrite Nat2Z.inj_succ, Z.pow_succ_r by lia.
    assert (P : 0 < 2 ^ Z.of_nat j) by (apply Z.pow_pos_nonneg; lia).
    split.
    + subst m. rewrite Z.div_div by lia. f_equal. lia.
    + intros Hodd.
      pose proof (Z.div_mod m0 (2 ^ Z.of_nat j) ltac:(lia)) as E1.
      pose proof (Z.mod_pos_bound m0 (2 ^ Z.of_nat j) P) as B1.
      pose proof (Z.div_mod m0 (2 * 2 ^ Z.of_nat j) ltac:(lia)) as E2.
      pose proof (Z.mod_pos_bound m0 (2 * 2 ^ Z.of_nat j) ltac:(lia)) as B2.
      rewrite <- I1 in E1.
      assert (Hm2 : m = 2 * (m / 2) + 1).
      { rewrite (Zodd_div2 m) at 1 by (now apply Zodd_bool_iff).
        rewrite Z.div2_div. lia. }
      assert (Q : m / 2 = m0 / (2 * 2 ^ Z.of_nat j)).
      { subst m. rewrite Z.div_div by lia. f_equal. lia. }
      rewrite <- Q in E2. nia.
Qed.

Lemma shr_spec m0 e n :
  0 <= m0 ->
  exists sh,
    sh = Z.max n 0 /\
    snd (shr (Build_shr_record m0 false false) e n) = e + sh /\
    shr_m (fst (shr (Build_shr_record m0 false false) e n)) = m0 / 2 ^ sh /\
    (shr_r (fst (shr (Build_shr_record m0 false false) e n)) = true ->
     0 < sh /\ 2 * (m0 mod 2 ^ sh) >= 2 ^ sh).
Proof.
  intros Hm. exists (Z.max n 0). split; [reflexivity|].
  destruct n as [|p|p]; cbn [shr fst snd shr_m shr_r].
  - rewrite Z.div_1_r. repeat split; [lia|discriminate|discriminate].
  - rewrite iter_pos_nat.
    destruct (shr_iter m0 (Pos.to_nat p) Hm) as [I1 I2].
    rewrite positive_nat_Z in I1, I2.
    replace (Z.max (Zpos p) 0) with (Zpos p) by lia.
    split; [reflexivity|]. split; [exact I1|].
    intros H. split; [lia|now apply I2].
  - replace (Z.max (Zneg p) 0) with 0 by lia.
    rewrite Z.div_1_r. repeat split; [lia|discriminate|discriminate].
Qed.

Lemma round_nearest_even_bounds mrs :
  shr_m mrs <= round_nearest_even (shr_m mrs) (loc_of_shr_record mrs) <=
  shr_m mrs + (if shr_r mrs then 1 else 0).
Proof.
  destruct mrs as [m [|] [|]]; cbn [shr_m shr_r loc_of_shr_record
                                    round_nearest_even]; try lia.
  destruct (Z.even m); lia.
Qed.

(** The value that [binary_round_aux] returns for an exact positive
    product: a mantissa and a shift that do not exceed the product by more
    than half of the first shift. *)
Lemma round_aux_bound M E :
  0 < M ->
  let sh := Z.max (fexp prec emax (Zdigits2 M + E) - E) 0 in
  exists m3 T,
    0 <= m3 /\ 0 <= T /\ m3 * 2 ^ T <= M + 2 ^ sh / 2 /\
    binary_round_aux prec emax false M E loc_Exact =
    match m3 with
    | Z0 => S754_zero false
    | Zpos p =>
        if E + T <=? emax - prec then S754_finite false p (E + T)
        else S754_infinity false
    | Zneg _ => S754_nan
    end.
Proof.
  intros HM sh. unfold binary_round_aux, shr_fexp.
  cbn [shr_record_of_loc].
  destruct (shr_spec M E (fexp prec emax (Zdigits2 M + E) - E) ltac:(lia))
    as (sh1 & Esh & S1 & S2 & S3).
  fold sh in Esh. subst sh1.
  destruct (shr (Build_shr_record M false false) E
                (fexp prec emax (Zdigits2 M + E) - E)) as [mrs1 e1].
  cbn [fst snd] in S1, S2, S3. subst e1.
  pose proof (round_nearest_even_bounds mrs1) as [R1 R2].
  set (m2 := round_nearest_even (shr_m mrs1) (loc_of_shr_record mrs1)) in *.
  assert (Hsh : 0 <= sh) by (unfold sh; lia).
  assert (P : 0 < 2 ^ sh) by (apply Z.pow_pos_nonneg; lia).
  assert (Hm1 : 0 <= shr_m mrs1) by (rewrite S2; apply Z.div_pos; lia).
  assert (Hm2 : 0 <= m2) by lia.
  assert (B2 : m2 * 2 ^ sh <= M + 2 ^ sh / 2).
  { pose proof (Z.div_mod M (2 ^ sh) ltac:(lia)) as E1.
    pose proof (Z.mod_pos_bound M (2 ^ sh) P) as B1.
    rewrite <- S2 in E1.
    assert (0 <= 2 ^ sh / 2) by (apply Z.div_pos; lia).
    destruct (shr_r mrs1).
    - destruct (S3 eq_refl) as [Hpos Hhalf].
      assert (E2 : 2 ^ sh = 2 * 2 ^ (sh - 1)).
      { rewrite <- Z.pow_succ_r by lia. f_equal. lia. }
      assert (2 ^ sh / 2 = 2 ^ (sh - 1)).
      { rewrite E2 at 1. rewrite Z.mul_comm, Z.div_mul by lia. reflexivity. }
      nia.
    - nia. }
  destruct (shr_spec m2 (E + sh)
              (fexp prec emax (Zdigits2 m2 + (E + sh)) - (E + sh)) Hm2)
    as (sh2 & Esh2 & T1 & T2 & _).
  destruct (shr (Build_shr_record m2 false false) (E + sh)
                (fexp prec emax (Zdigits2 m2 + (E + sh)) - (E + sh)))
    as [mrs2 e2].
  cbn [fst snd] in T1, T2. subst e2.
  assert (Hsh2 : 0 <= sh2) by lia.
  assert (P2 : 0 < 2 ^ sh2) by (apply Z.pow_pos_nonneg; lia).
  exists (shr_m mrs2), (sh + sh2).
  split; [rewrite T2; apply Z.div_pos; lia|]. split; [lia|]. split.
  - rewrite Z.pow_add_r by lia.
    pose proof (Z.div_mod m2 (2 ^ sh2) ltac:(lia)) as E3.
    pose proof (Z.mod_pos_bound m2 (2 ^ sh2) P2) as B3.
    rewrite <- T2 in E3. nia.
  - rewrite Z.add_assoc. reflexivity.
Qed.

Lemma bounded_mantissa m e :
  bounded prec emax m e = true -> Zpos m < 2 ^ 53.
Proof.
  unfold bounded, canonical_mantissa, fexp, emin, prec, emax. intros H.
  apply andb_true_iff in H. destruct H as [H _]. apply Z.eqb_eq in H.
  destruct (digits2_bounds m) as [_ U].
  assert (D : Zpos (digits2_pos m) <= 53) by lia.
  assert (2 ^ Zpos (digits2_pos m) <= 2 ^ 53)
    by (apply Z.pow_le_mono_r; lia).
  lia.
Qed.

Lemma below_one m e :
  bounded prec emax m e = true ->
  SFltb (S754_finite false m e) one = true -> e <= -53.
Proof.
  intros Hb Hlt. unfold SFltb, SFcompare, one in Hlt.
  destruct (Z.compare_spec e (-52)) as [->|Hl|Hg]; [|lia|discriminate].
  exfalso. rewrite Pos.compare_cont_spec in Hlt.
  destruct (Pos.compare_spec m 4503599627370496) as [C|C|C];
    cbn [Pos.switch_Eq] in Hlt; try discriminate Hlt.
  unfold bounded, canonical_mantissa, fexp, emin, prec, emax in Hb.
  apply andb_true_iff in Hb. destruct Hb as [Hb _]. apply Z.eqb_eq in Hb.
  assert (D : Zpos (digits2_pos m) = 53) by (clear - Hb; lia).
  destruct (digits2_bounds m) as [L _].
  rewrite D in L. change (2 ^ (53 - 1)) with 4503599627370496 in L.
  apply Pos2Z.pos_lt_pos in C. clear - C L. lia.
Qed.

(** The product of a double below 1 and of a double [N] that is not a
    power of two, rounded to the nearest double, is still below [N]. *)
Lemma mul_below m e mn en N :
  bounded prec emax m e = true -> e <= -53 ->
  2 ^ 52 < Zpos mn < 2 ^ 53 -> -52 <= en <= 0 ->
  Zpos mn = N * 2 ^ (- en) ->
  exists r,
    floor (SFmul prec emax (S754_finite false m e) (S754_finite false mn en))
    = Some r /\ 0 <= r <= N - 1.
Proof.
  intros Hb He Hmn Hen HN.
  pose proof (bounded_mantissa m e Hb) as Hm.
  cbn [SFmul xorb].
  destruct (round_aux_bound (Zpos (m * mn)) (e + en) ltac:(lia))
    as (m3 & T & H3 & HT & Hle & ->).
  set (sh := Z.max (fexp prec emax (Zdigits2 (Zpos (m * mn)) + (e + en))
                    - (e + en)) 0) in Hle.
  assert (Pen : 0 < 2 ^ (- en)) by (apply Z.pow_pos_nonneg; lia).
  assert (HNpos : 1 <= N) by nia.
  (* the first shift is at most [- e] *)
  assert (Hsh : 0 <= sh <= - e).
  { unfold sh, fexp, emin, prec, emax. cbn [Zdigits2].
    assert (D : Zpos (digits2_pos (m * mn)) <= 106).
    { apply digits2_le; [lia|]. rewrite Pos2Z.inj_mul.
      change (2 ^ 106) with (2 ^ 53 * 2 ^ 53). nia. }
    lia. }
  set (Q := 2 ^ (- e - 53)).
  assert (HQ : 1 <= Q).
  { unfold Q. assert (0 < 2 ^ (- e - 53)) by (apply Z.pow_pos_nonneg; lia).
    lia. }
  assert (E1 : 2 ^ (- e) = 2 ^ 53 * Q).
  { unfold Q. rewrite <- Z.pow_add_r by lia. f_equal. lia. }
  assert (Hhalf : 2 ^ sh / 2 <= 2 ^ 52 * Q).
  { assert (2 ^ sh <= 2 ^ (- e)) by (apply Z.pow_le_mono_r; lia).
    rewrite E1 in H. change (2 ^ 53) with (2 * 2 ^ 52) in H.
    apply Z.div_le_upper_bound; lia. }
  assert (Key : m3 * 2 ^ T < Zpos mn * 2 ^ (- e)).
  { rewrite E1. rewrite Pos2Z.inj_mul in Hle.
    change (2 ^ 53) with 9007199254740992 in *.
    change (2 ^ 52) with 4503599627370496 in *.
    assert (Zpos m * Zpos mn <= 9007199254740991 * Zpos mn) by nia.
    assert (Zpos mn * Q <= Zpos mn * (9007199254740992 * Q - 9007199254740991))
      by nia.
    nia. }
  assert (PT : 0 < 2 ^ T) by (apply Z.pow_pos_nonneg; lia).
  assert (Pe : 0 < 2 ^ (- e)) by (apply Z.pow_pos_nonneg; lia).
  destruct m3 as [|p|p]; [|clear H3|lia].
  - exists 0. split; [reflexivity|lia].
  - (* the exponent stays far below the overflow threshold *)
    assert (HT53 : T < 53 - e).
    { assert (2 ^ T < 2 ^ (53 - e)).
      { replace (53 - e) with (53 + - e) by lia.
        rewrite Z.pow_add_r by lia. nia. }
      destruct (Z.lt_ge_cases T (53 - e)) as [|G]; [assumption|].
      assert (2 ^ (53 - e) <= 2 ^ T) by (apply Z.pow_le_mono_r; lia).
      lia. }
    unfold prec, emax.
    destruct (Z.leb_spec (e + en + T) (1024 - 53)) as [_|G]; [|lia].
    cbn [floor]. eexists. split; [reflexivity|].
    rewrite HN in Key.
    destruct (Z.leb_spec 0 (e + en + T)) as [Hpos|Hneg].
    + assert (ET : 2 ^ T = 2 ^ (e + en + T) * (2 ^ (- en) * 2 ^ (- e))).
      { rewrite <- !Z.pow_add_r by lia. f_equal. lia. }
      assert (0 < 2 ^ (e + en + T)) by (apply Z.pow_pos_nonneg; lia).
      rewrite ET in Key. nia.
    + assert (ET : 2 ^ (- en) * 2 ^ (- e) = 2 ^ (- (e + en + T)) * 2 ^ T).
      { rewrite <- !Z.pow_add_r by lia. f_equal. lia. }
      assert (P' : 0 < 2 ^ (- (e + en + T)))
        by (apply Z.pow_pos_nonneg; lia).
      assert (Zpos p < 2 ^ (- (e + en + T)) * N) by nia.
      split; [apply Z.div_pos; lia|].
      assert (Zpos p / 2 ^ (- (e + en + T)) < N)
        by (apply Z.div_lt_upper_bound; lia).
      lia.
Qed.

Lemma randomBelow_range u :
  unit_double u = true ->
  (exists r, randomBelow u 241 = Some r /\ 0 <= r <= 240) /\
  (exists r, randomBelow u 61 = Some r /\ 0 <= r <= 60).
Proof.
  unfold unit_double, randomBelow.
  change (ofZ 241) with (S754_finite false 8479433673408512 (-45)).
  change (ofZ 61) with (S754_finite false 8584986789675008 (-47)).
  destruct u as [[|]|[|]| |[|] m e]; try discriminate.
  - intros _. split; exists 0; (split; [reflexivity|lia]).
  - intros H. apply andb_true_iff in H. destruct H as [Hb Hlt].
    pose proof (below_one m e Hb Hlt) as He.
    split.
    + apply (mul_below m e _ _ 241 Hb He); [cbn; lia|lia|reflexivity].
    + apply (mul_below m e _ _ 61 Hb He); [cbn; lia|lia|reflexivity].
Qed.

(** *** The target of a wait *)

Lemma loop_top_keeps_nextSendAt i t s :
  running s = true -> (i < length (usernames t))%nat ->
  nextSendAt (snd (loop_top i t s)) = nextSendAt s.
Proof.
  intros Hr Hlt. unfold loop_top.
  destruct (Nat.ltb_spec i (length (usernames t))); [|lia].
  rewrite Hr. cbn [negb].
  pose proof (rotate_others t
    (set_currentUsername (nth_error (usernames t) i)
                         (set_index (Z.of_nat i) s))) as (_ & _ & _ & v & R).
  destruct (rotate t _) as [t' s']. cbn [snd] in R |- *. now subst s'.
Qed.

Lemma pace_target i a t s :
  running s = true -> (S i < length (usernames t))%nat ->
  nextSendAt (snd (pace i a t s)) =
  Some (clock a +
        (3600 + jitterSeconds (jitter_draw a) +
         (if captcha_roll a then captchaExtraDelaySeconds (captcha_draw a)
          else 0)) * 1000).
Proof.
  intros Hr Hlt. unfold pace.
  destruct (Z.ltb_spec (Z.of_nat i) (Z.of_nat (length (usernames t)) - 1));
    [|lia].
  cbv zeta. unfold countdown.
  destruct ((clock_check a <? _) && _); [reflexivity|].
  now rewrite loop_top_keeps_nextSendAt.
Qed.

End PacingFacts.

(* ================================================================== *)
(** ** Facts about the client *)
(* ================================================================== *)

Module ClientFacts.
Import JS Regex Sanitizer Client ClientTerms TextTerms.
Import RegexFacts SanitizerFacts PlaceholderFacts SanitizerFixed Placeholders.
Local Open Scope N_scope.

(** *** The test of a handle *)

Lemma star_in p s n : In n (star p s) <-> (n <= span p s)%nat.
Proof.
  revert n. induction s as [|c t IH]; intros n; cbn [star span].
  - cbn. split; [intros [<-|[]]; lia|intros H; left; lia].
  - destruct (p c).
    + rewrite in_app_iff, in_map_iff. split.
      * intros [(m & <- & Hm)|[<-|[]]]; [apply IH in Hm|]; lia.
      * intros H. destruct n as [|n]; [right; now left|].
        left. exists n. split; [reflexivity|]. apply IH. lia.
    + cbn. split; [intros [<-|[]]; lia|intros H; left; lia].
Qed.

Lemma span_full p s : span p s = length s <-> forallb p s = true.
Proof.
  induction s as [|c t IH]; cbn [span forallb length]; [tauto|].
  destruct (p c); cbn [andb].
  - rewrite <- IH. split; [intros [= E]; exact E|intros ->; reflexivity].
  - split; discriminate.
Qed.

Lemma test_username name :
  test_whole re_username name = true <->
  name <> [] /\ forallb name_class name = true.
Proof.
  unfold test_whole, re_username. cbn [matches at_least].
  destruct name as [|c t].
  - cbn. split; [discriminate|intros [H _]; congruence].
  - destruct (name_class c) eqn:Hc; cbn [forallb andb existsb].
    + rewrite existsb_exists. split.
      * intros (n & Hin & E). apply Nat.eqb_eq in E. subst n.
        apply in_map_iff in Hin. destruct Hin as (m & [= E] & Hm).
        subst m. apply star_in in Hm.
        pose proof (span_le name_class t).
        split; [discriminate|]. rewrite Hc. apply span_full. lia.
      * intros [_ H]. rewrite Hc in H. apply span_full in H.
        exists (length (c :: t)). split; [|apply Nat.eqb_refl].
        apply in_map_iff. exists (length t). split; [reflexivity|].
        apply star_in. lia.
    + split; [discriminate|]. rewrite Hc. intros [_ H]. discriminate.
Qed.

(** What a code unit of a handle is not. *)
Lemma name_class_plain x :
  name_class x = true ->
  is_space x = false /\ opener x = false /\ (x =? 36) = false /\
  existsb (N.eqb x) (js "[]<>") = false /\
  existsb (N.eqb x) (js "*`_>#") = (x =? 95).
Proof.
  unfold name_class. intros H.
  apply andb_true_iff in H. destruct H as [H7 H].
  apply N.ltb_lt in H7.
  assert (Hx : (65 <= x /\ x <= 90) \/ (97 <= x /\ x <= 122) \/
               (48 <= x /\ x <= 57) \/ x = 46 \/ x = 95).
  { repeat (apply orb_true_iff in H; destruct H as [H|H]).
    - apply andb_true_iff in H. destruct H as [H1 H2].
      apply N.leb_le in H1, H2.
      destruct (fold_case_opener x) as [E|E]; [left; lia|right; left; lia].
    - apply andb_true_iff in H. destruct H as [H1 H2].
      apply N.leb_le in H1, H2. right. right. left. lia.
    - apply N.eqb_eq in H. tauto.
    - apply N.eqb_eq in H. tauto. }
  unfold is_space, opener. cbn -[N.eqb N.leb].
  repeat match goal with
         | |- context [?a <=? ?b] => destruct (N.leb_spec a b); try lia
         | |- context [?a =? ?b] => destruct (N.eqb_spec a b); try lia
         end; repeat split.
Qed.

(** *** The import of the recipients *)

Lemma scanNames_spec lines : forall i,
  Forall (fun name => test_whole re_username name = true)
         (fst (scanNames i lines)) /\
  (length (fst (scanNames i lines)) + length (snd (scanNames i lines)))%nat =
    length (filled lines) /\
  ascending i (i + length lines) (snd (scanNames i lines)) = true.
Proof.
  induction lines as [|line rest IH]; intros i.
  - cbn. repeat split. constructor.
  - cbn [scanNames filled filter length].
    destruct (IH (S i)) as (I1 & I2 & I3).
    destruct (scanNames (S i) rest) as [clean invalid]. cbn [fst snd] in *.
    fold (filled rest).
    assert (Hasc : forall lo l, ascending (S lo) (S lo + length rest) l = true ->
                     ascending lo (lo + S (length rest)) l = true).
    { intros lo l. replace (lo + S (length rest))%nat
        with (S lo + length rest)%nat by lia.
      destruct l as [|n l]; [reflexivity|]. cbn [ascending].
      intros H. apply andb_true_iff in H. destruct H as [H H3].
      apply andb_true_iff in H. destruct H as [H1 H2].
      apply Nat.ltb_lt in H1. rewrite H2, H3.
      destruct (Nat.ltb_spec lo n); [reflexivity|lia]. }
    destruct (truthy (trim line)); cbn [negb].
    + destruct (test_whole re_username (dropAt (trim line))) eqn:E;
        cbn [fst snd length].
      * repeat split; [now constructor|lia|now apply Hasc].
      * repeat split; [exact I1|lia|].
        cbn [ascending]. replace (i + 1)%nat with (S i) by lia.
        replace (i + S (length rest))%nat with (S i + length rest)%nat by lia.
        rewrite I3.
        destruct (Nat.ltb_spec i (S i)); [|lia].
        destruct (Nat.leb_spec (S i) (S i + length rest)); [reflexivity|lia].
    + repeat split; [exact I1|exact I2|now apply Hasc].
Qed.

(** *** A handle in the place of a placeholder *)

Lemma no_space_clean s :
  (forall x, In x s -> is_space x = false) ->
  trimmed s = true /\ adjacent_spaces s = false.
Proof.
  intros H. split.
  - unfold trimmed. apply andb_true_iff. split.
    + destruct s as [|c t]; [reflexivity|]. cbn.
      now rewrite (H c (or_introl eq_refl)).
    + destruct (rev s) as [|c t] eqn:E; [reflexivity|]. cbn.
      rewrite (H c); [reflexivity|]. apply in_rev. rewrite E. now left.
  - induction s as [|c1 t IH]; [reflexivity|].
    destruct t as [|c2 t]; [reflexivity|].
    cbn [adjacent_spaces]. rewrite (H c1 (or_introl eq_refl)).
    cbn [andb orb]. apply IH. intros x Hx. apply H. now right.
Qed.

Lemma handle_for_placeholder p handle :
  existsb (str_eqb p) (square_spellings ++ brace_spellings) = true ->
  handle <> [] -> forallb name_class handle = true ->
  sanitizeMessage p [] handle = filter (fun c => negb (c =? 95)) handle.
Proof.
  intros Hp Hne Hh. rewrite forallb_forall in Hh.
  assert (Htrim : trim p = p).
  { apply existsb_exists in Hp. destruct Hp as (q & Hq & E).
    apply str_eqb_eq in E. subst q.
    cbn in Hq. repeat (destruct Hq as [<-|Hq]; [reflexivity|]). destruct Hq. }
  assert (Hplain : plain_name handle = true).
  { unfold plain_name. apply forallb_forall. intros x Hx.
    destruct (name_class_plain x (Hh x Hx)) as (_ & H1 & H2 & _).
    now rewrite H1, H2. }
  assert (Hrep : replacePlaceholders handle p = handle).
  { rewrite existsb_app in Hp. apply orb_true_iff in Hp.
    destruct Hp as [Hp|Hp].
    - pose proof (replacePlaceholders_pieces handle [Square p] Hplain) as E.
      cbn [flat_map source result forallb piece_ok] in E.
      rewrite !app_nil_r in E. apply E. now rewrite Hp.
    - pose proof (replacePlaceholders_pieces handle [Brace p] Hplain) as E.
      cbn [flat_map source result forallb piece_ok] in E.
      rewrite !app_nil_r in E. apply E. now rewrite Hp. }
  unfold sanitizeMessage. rewrite Htrim.
  replace (str_or [] handle) with handle by reflexivity.
  rewrite Hrep, strip_markdown_filter, strip_brackets_filter.
  assert (E1 : filter (fun c => negb (existsb (N.eqb c) (js "*`_>#"))) handle =
               filter (fun c => negb (c =? 95)) handle).
  { apply filter_ext_in. intros x Hx.
    destruct (name_class_plain x (Hh x Hx)) as (_ & _ & _ & _ & H).
    now rewrite H. }
  rewrite E1.
  assert (Hin : forall x, In x (filter (fun c => negb (c =? 95)) handle) ->
                          name_class x = true).
  { intros x Hx. apply filter_In in Hx. apply Hh. tauto. }
  rewrite filter_id.
  - destruct (no_space_clean (filter (fun c => negb (c =? 95)) handle))
      as [Ht Ha].
    { intros x Hx. now apply name_class_plain, Hin. }
    rewrite (collapse_id _ Ha). apply trim_id, Ht.
  - intros x Hx. apply negb_true_iff. now apply name_class_plain, Hin.
Qed.

(** *** The countdown text *)

Lemma readDigits_digits u : readDigits (digits u) = Some u.
Proof.
  induction u as [|u IH|u IH|u IH|u IH|u IH|u IH|u IH|u IH|u IH|u IH];
    cbn [digits readDigits]; [reflexivity|..]; now rewrite IH.
Qed.

Lemma decimalValue_pad k :
  decimalValue (padStart2 (toString k)) = Some k /\
  (2 <= length (padStart2 (toString k)))%nat.
Proof.
  pose proof (DecimalN.Unsigned.of_to k) as E.
  pose proof (readDigits_digits (N.to_uint k)) as R.
  unfold toString. destruct (digits (N.to_uint k)) as [|c [|d t]] eqn:D.
  - cbn in R. injection R as R. rewrite <- R in E. cbn in E. subst k.
    split; [reflexivity|cbn; lia].
  - split; [|cbn; lia]. cbn [padStart2]. unfold decimalValue.
    change (readDigits [48; c]) with
      (match readDigits [c] with
       | Some u => Some (Decimal.D0 u)
       | None => None
       end).
    rewrite R. cbn [option_map].
    change (N.of_uint (Decimal.D0 (N.to_uint k))) with (N.of_uint (N.to_uint k)).
    now rewrite E.
  - split; [|cbn; lia]. cbn [padStart2]. unfold decimalValue.
    rewrite R. cbn [option_map]. now rewrite E.
Qed.

Lemma two_digits k : k < 100 -> length (padStart2 (toString k)) = 2%nat.
Proof.
  intros H.
  assert (A : forallb
                (fun n => Nat.eqb (length (padStart2 (toString (N.of_nat n)))) 2)
                (seq 0 100) = true) by (vm_compute; reflexivity).
  rewrite forallb_forall in A.
  specialize (A (N.to_nat k)). rewrite N2Nat.id in A.
  apply Nat.eqb_eq, A, in_seq. lia.
Qed.

(** *** Splitting into lines *)

Lemma newline_first c t :
  c <> 13 ->
  first_match re_newline (c :: t) = if LF =? c then Some 1%nat else None.
Proof.
  intros Hc. unfold first_match, re_newline, lit.
  rewrite matches_or, matches_chars_cat.
  destruct (N.eqb_spec 13 c) as [E|_]; [congruence|].
  cbn [app matches]. now destruct (LF =? c).
Qed.

Lemma split_from_some r : forall s piece k,
  exists line rest, split_from r piece k s = line :: rest.
Proof.
  induction s as [|c t IH]; intros piece k.
  - destruct k; cbn; eauto.
  - destruct k as [|k]; cbn [split_from]; [|apply IH].
    destruct (first_match r (c :: t)) as [[|n]|]; eauto.
    destruct piece; eauto.
Qed.

Lemma join_split_from : forall s piece,
  ~ In 13 s ->
  joinLines (split_from re_newline piece 0 s) = piece ++ s.
Proof.
  induction s as [|c t IH]; intros piece Hs.
  - cbn. now rewrite app_nil_r.
  - assert (Hc : c <> 13) by (intros ->; apply Hs; now left).
    assert (Ht : ~ In 13 t) by (intros H; apply Hs; now right).
    cbn [split_from]. rewrite (newline_first c t Hc).
    destruct (N.eqb_spec LF c) as [<-|Hn].
    + destruct (split_from_some re_newline t [] 0) as (line & rest & E).
      pose proof (IH [] Ht) as J. rewrite E in J |- *.
      cbn [joinLines]. cbn [joinLines] in J. rewrite J. reflexivity.
    + rewrite IH by exact Ht. now rewrite <- app_assoc.
Qed.

Lemma hms_sum (n : N) :
  (n / 3600 * 3600 + n mod 3600 / 60 * 60 + n mod 60 = n)%N.
Proof.
  pose proof (N.div_mod n 3600 ltac:(discriminate)) as E1.
  pose proof (N.div_mod (n mod 3600) 60 ltac:(discriminate)) as E2.
  pose proof (N.div_mod n 60 ltac:(discriminate)) as E4.
  pose proof (N.mod_lt n 3600 ltac:(discriminate)) as B1.
  pose proof (N.mod_lt n 60 ltac:(discriminate)) as B2.
  assert (E3 : ((n mod 3600) mod 60 = n mod 60)%N).
  { symmetry.
    apply (N.mod_unique _ 60 (n / 60 - 60 * (n / 3600))); [exact B2|].
    assert (60 * (n / 3600) <= n / 60)%N.
    { apply N.div_le_lower_bound; [discriminate|].
      rewrite E1 at 2. rewrite N.mul_assoc. apply N.le_add_r. }
    rewrite N.mul_sub_distr_l, N.mul_assoc.
    change (60 * 60)%N with 3600%N.
    generalize dependent (n / 3600)%N. generalize dependent (n / 60)%N.
    generalize dependent (n mod 3600)%N. generalize dependent (n mod 60)%N.
    intros. lia. }
  rewrite E3 in E2.
  generalize dependent (n / 3600)%N.
  generalize dependent (n mod 3600 / 60)%N.
  generalize dependent (n mod 3600)%N. generalize dependent (n mod 60)%N.
  intros. lia.
Qed.

Lemma trim_twice s : trim (trim s) = trim s.
Proof. apply trim_id, trim_trimmed. Qed.

End ClientFacts.

(* ================================================================== *)
(** ** The properties of the specification *)
(* ================================================================== *)

Module Claims.
Import JS Regex Sanitizer Job App TextTerms JobTerms ServerTerms.
Import RegexFacts SanitizerFacts PlaceholderFacts SanitizerFixed BreakFacts.
Import Placeholders JobFacts AppFacts LoopFacts ServerFacts SoloFacts.
Local Open Scope Z_scope.

(** C1.  The server registers no route for the stop request: a
    [POST /api/stop] falls through to the 404 answer and leaves the server
    as it was, so [running] stays set; the Stop button of the client then
    reports "Failed to stop".  No request at all writes the job state. *)
Theorem stop_request_finds_no_route :
  forall parseURL key sv b now,
    route (js "POST") (js "/api/stop") = None /\
    serve parseURL key sv (Http (js "POST") (js "/api/stop") b now) =
      (sv, Some NotFound) /\
    onStopClick (Fulfilled NotFound) = Alert (js "Failed to stop") /\
    (forall method path,
        state (fst (serve parseURL key sv (Http method path b now))) =
        state sv).
Proof.
  intros parseURL key sv b now. repeat split.
  intros method path. apply http_keeps_state.
Qed.



(** C2 as stated fails: two start requests both pass the check of line
    105 before either login settles, so two loops count into one job
    state.  The first loop runs to its end, nobody having cleared
    [running], and leaves three failures for a list of two. *)
Lemma overlapping_jobs_overcount :
  let sv := history no_parser (Some (js "key")) overlapping boot in
  List.map pc (loops sv) = [Finished; AwaitDelay 0 3780000] /\
  List.map usernames (loops sv) = [[alice; bob]; [alice; bob]] /\
  total (state sv) = 2 /\ index (state sv) = 1 /\
  sent (state sv) = 0 /\ failed (state sv) = 3 /\
  sent (state sv) + failed (state sv) <> total (state sv).
Proof. cbv zeta. repeat split. discriminate. Qed.

(** C3.  Three line breaks in a row, and two as well, come out of the
    sanitizer as a single line break.  The first whitespace pass
    [/\s+\n/g] already takes every run of line breaks, so that on its
    result the pass [/\n{3,}/g] finds nothing to replace; and no output of
    the sanitizer holds two whitespace characters in a row, two line
    breaks in particular. *)
Theorem paragraph_breaks_do_not_survive :
  sanitizeMessage (js "a" ++ [LF; LF; LF] ++ js "b") (js "Bob") (js "bob") =
    js "a" ++ [LF] ++ js "b" /\
  sanitizeMessage (js "a" ++ [LF; LF] ++ js "b") (js "Bob") (js "bob") =
    js "a" ++ [LF] ++ js "b" /\
  (forall out,
      replace re_breaks3 [LF; LF] (replace re_space_before_break [LF] out) =
      replace re_space_before_break [LF] out) /\
  (forall msg name username,
      adjacent_spaces (sanitizeMessage msg name username) = false /\
      includes [LF; LF] (sanitizeMessage msg name username) = false).
Proof.
  split; [reflexivity|]. split; [reflexivity|].
  split; [exact breaks3_pass_idle|].
  intros msg name username. split.
  - apply sanitize_no_adjacent.
  - apply no_adjacent_no_double_break, sanitize_no_adjacent.
Qed.




(** C5, as the code has it.  In every state the server can reach,
    [lastStep], when present, is one of the four values the code writes:
    login_success, resolve_user_pk, generate_message, send_dm.  It
    records the stage attempted last: whatever happens next in such a
    state, if it brings a background task to the resolve, generate or
    send call of a recipient (a successful login brings the new task to
    its first resolve call) then [lastStep] is the name of that stage
    afterwards, and otherwise [lastStep] is left as it was. *)
Theorem lastStep_is_a_written_step :
  forall parseURL key hs,
    let sv := history parseURL key hs boot in
    lastStep_in steps_written (state sv) /\
    forall h,
      match attempted parseURL sv h with
      | Some st => lastStep (state (fst (serve parseURL key sv h))) = Some st
      | None =>
          lastStep (state (fst (serve parseURL key sv h))) =
          lastStep (state sv)
      end.
Proof.
  intros parseURL key hs sv. split.
  - apply history_lastStep. exact I.
  - intros h. apply serve_attempted.
    apply (history_observable parseURL key hs boot).
    split; [exact I|constructor].
Qed.

(** C5 as stated fails: once a job has started, [lastStep] is
    resolve_user_pk, which is none of login_success, resolve_user,
    generate_message, send_message. *)
Lemma lastStep_outside_spec_values :
  lastStep (state (history no_parser (Some (js "key")) started boot)) =
    Some (js "resolve_user_pk") /\
  ~ lastStep_in steps_of_the_spec
      (state (history no_parser (Some (js "key")) started boot)).
Proof.
  split; [reflexivity|].
  intros H. vm_compute in H.
  repeat (destruct H as [H|H]; [discriminate H|]). exact H.
Qed.

(** C6, as the code has it.  While one job runs on its own, [nextSendAt]
    is absent from the start to the end of the first recipient's
    dispatch and once the loop has exited; during a wait it holds the
    target of that wait, the one computed at the end of the dispatch
    before it; during the dispatches after a wait it still holds that
    target, the target of the wait that is over. *)
Theorem nextSendAt_follows_schedule :
  forall igUsername names proxies agent xs,
    timetable
      (last_planned None xs (launch igUsername names proxies agent))
      (run xs (launch igUsername names proxies agent)).
Proof.
  intros igUsername names proxies agent xs.
  apply run_timetable, launch_timetable.
Qed.

(** C6 as stated fails: after the first wait the task is resolving the
    second recipient, no task is waiting, and [nextSendAt] still holds
    the target of the wait that is over. *)
Lemma nextSendAt_set_during_dispatch :
  let sv := history no_parser (Some (js "key")) second_dispatch boot in
  List.map pc (loops sv) = [AwaitResolve 1] /\
  nextSendAt (state sv) = Some 3780000 /\
  ~ only_while_waiting sv.
Proof.
  cbv zeta. split; [reflexivity|]. split; [reflexivity|].
  intros H.
  assert (Hset : nextSendAt
                   (state (history no_parser (Some (js "key"))
                                   second_dispatch boot)) <> None)
    by (vm_compute; discriminate).
  destruct (H Hset) as (t & Hin & Hw).
  vm_compute in Hin. destruct Hin as [<-|[]]. discriminate Hw.
Qed.

(** C7, as the code has it.  Sanitizing a sanitized text again, with the
    same name and handle, changes nothing when the sanitized text holds
    neither [{name}] nor [{Name}]. *)
Theorem sanitize_idempotent_without_brace_placeholder :
  forall x name username,
    includes (js "{name}") (sanitizeMessage x name username) = false ->
    includes (js "{Name}") (sanitizeMessage x name username) = false ->
    sanitizeMessage (sanitizeMessage x name username) name username =
    sanitizeMessage x name username.
Proof.
  intros x name username H1 H2. apply sanitize_fixed.
  - apply sanitize_trimmed.
  - apply sanitize_no_adjacent.
  - intros c. apply sanitize_no_stripped.
  - exact H1.
  - exact H2.
Qed.

Lemma sanitize_idempotent_witness :
  sanitizeMessage
    (sanitizeMessage (js "  Hi [Name],   *you*  ") (js "Bob") (js "bob"))
    (js "Bob") (js "bob") =
  sanitizeMessage (js "  Hi [Name],   *you*  ") (js "Bob") (js "bob").
Proof.
  apply (sanitize_idempotent_without_brace_placeholder
           (js "  Hi [Name],   *you*  ") (js "Bob") (js "bob")).
  - reflexivity.
  - reflexivity.
Defined.

(** C7 as stated fails: stripping the asterisk from [{na*me}] leaves
    [{name}], which a second application replaces by the name. *)
Lemma sanitize_twice_differs :
  sanitizeMessage (js "{na*me}") (js "Bob") (js "bob") = js "{name}" /\
  sanitizeMessage (sanitizeMessage (js "{na*me}") (js "Bob") (js "bob"))
                  (js "Bob") (js "bob") <>
  sanitizeMessage (js "{na*me}") (js "Bob") (js "bob").
Proof. split; [reflexivity|discriminate]. Qed.

(** C8.  Whatever the text, the display name and the handle, the output
    of the sanitizer holds none of the characters
    [*], [`], [_], [>], [#], [[], []], [<]. *)
Theorem sanitize_output_free_of_markup :
  forall msg name username,
    Forall (fun c => existsb (N.eqb c) (js "*`_>#[]<") = false)
           (sanitizeMessage msg name username).
Proof.
  intros msg name username. apply Forall_forall.
  intros c. apply sanitize_no_stripped.
Qed.

(** C9.  The proxies are assigned round-robin over the list validated at
    job start: during the dispatch of the recipient of index [i] the job
    state and the session hold [list[i mod length]] and the cursor is
    [i + 1]; with an empty list they hold no proxy and the cursor stays
    at 0.  With the list [A, B, C] the first five dispatches get
    [A, B, C, A, B], as the job state shows at the start of each dispatch
    of a run over five recipients; with no proxy it shows none. *)
Theorem proxies_rotate_round_robin :
  forall parseURL igUsername names proxiesField agent xs,
    rotation (validProxies parseURL proxiesField)
      (run xs (launch igUsername names
                      (validProxies parseURL proxiesField) agent)) /\
    (forall A B C,
        List.map (assigned [A; B; C]) [0; 1; 2; 3; 4]%nat =
        [Some A; Some B; Some C; Some A; Some B]) /\
    (forall i, assigned [] i = None) /\
    (forall A B C,
        proxies_seen [A; B; C] = [Some A; Some B; Some C; Some A; Some B]) /\
    proxies_seen [] = [None; None; None; None; None].
Proof.
  intros parseURL igUsername names proxiesField agent xs. split.
  - apply run_rotation, launch_rotation.
  - repeat split; reflexivity.
Qed.

(** C10.  A resumption of the loop that ends a dispatch adds 1 to [sent]
    and clears [lastError] when the message was sent; when a step failed
    it adds 1 to [failed] and stores the message of the [Error] thrown,
    or the string of a thrown value that is no [Error]; either way it
    leaves the other counter alone.  Every other resumption leaves both
    counters alone; [total] never changes. *)
Theorem dispatch_outcome_counted_once :
  forall ev a t s,
    let s' := snd (resume ev a t s) in
    total s' = total s /\
    match outcome (pc t) ev with
    | Some None =>
        sent s' = sent s + 1 /\ failed s' = failed s /\ lastError s' = None
    | Some (Some (ErrorObject message)) =>
        failed s' = failed s + 1 /\ sent s' = sent s /\
        lastError s' = Some message
    | Some (Some (OtherValue text)) =>
        failed s' = failed s + 1 /\ sent s' = sent s /\
        lastError s' = Some text
    | None => sent s' = sent s /\ failed s' = failed s
    end.
Proof.
  intros ev a t s s'.
  pose proof (resume_effect ev a t s) as [Ht H]. fold s' in Ht, H.
  split; [exact Ht|].
  destruct (outcome (pc t) ev) as [[[message|text]|]|]; exact H.
Qed.

End Claims.

(* ================================================================== *)
(** ** Further properties of the code *)
(* ================================================================== *)

Module Extras.
Import JS Regex Sanitizer Job App TextTerms JobTerms Pacing ServerTerms.
Import Client ClientTerms.
Import RegexFacts SanitizerFacts PlaceholderFacts SanitizerFixed Placeholders.
Import JobFacts AppFacts LoopFacts ServerFacts SoloFacts PacingFacts.
Import ClientFacts.
Local Open Scope Z_scope.

(** X1.  When the loop schedules a wait (a recipient is left and the
    flag is set), [nextSendAt] is the clock reading plus a whole number
    of seconds between 3780 and 4140, whatever doubles in [0, 1)
    [Math.random()] returns, the products being rounded as doubles
    before [Math.floor]. *)
Theorem wait_between_3780_and_4140_seconds :
  forall time check u1 u2 u3 i t s,
    unit_double u1 = true ->
    unit_double u3 = true ->
    running s = true ->
    (S i < length (usernames t))%nat ->
    exists a w,
      ambientOf time check u1 u2 u3 = Some a /\
      3780 <= w <= 4140 /\
      nextSendAt (snd (pace i a t s)) = Some (time + w * 1000).
Proof.
  intros time check u1 u2 u3 i t s H1 H3 Hr Hlt.
  destruct (randomBelow_range u1 H1) as [(r1 & E1 & R1) _].
  destruct (randomBelow_range u3 H3) as [_ (r3 & E3 & R3)].
  unfold ambientOf. rewrite E1, E3.
  eexists. eexists. split; [reflexivity|].
  rewrite (pace_target i _ t s Hr Hlt).
  cbn [clock jitter_draw captcha_roll captcha_draw].
  unfold jitterSeconds, captchaExtraDelaySeconds.
  split; [|reflexivity].
  destruct (rollBelowFifth u2); lia.
Qed.

Lemma wait_between_witness :
  exists a w,
    ambientOf 1000 1000 sample_rounded_up sample_smallest sample_largest =
      Some a /\
    3780 <= w <= 4140 /\
    nextSendAt (snd (pace 0 a resolving_task
                          (fresh (js "me") [alice; bob] None))) =
    Some (1000 + w * 1000).
Proof.
  apply (wait_between_3780_and_4140_seconds 1000 1000
           sample_rounded_up sample_smallest sample_largest 0 resolving_task
           (fresh (js "me") [alice; bob] None)).
  - reflexivity.
  - reflexivity.
  - reflexivity.
  - simpl. lia.
Defined.

(** X2.  The status request changes nothing on the server and copies the
    counters; its [secondsRemaining] is never negative, is 0 when
    [nextSendAt] is absent or not in the future, and otherwise is the
    time left rounded up to whole seconds. *)
Theorem status_counts_down_without_going_negative :
  forall parseURL key sv b now,
    serve parseURL key sv (Http (js "GET") (js "/api/status") b now) =
      (sv, Some (handleStatus now sv)) /\
    exists j secs,
      handleStatus now sv = StatusReply j secs /\
      0 <= secs /\
      running j = running (state sv) /\ total j = total (state sv) /\
      index j = index (state sv) /\ sent j = sent (state sv) /\
      failed j = failed (state sv) /\
      match nextSendAt (state sv) with
      | None => secs = 0
      | Some due =>
          (due <= now -> secs = 0) /\
          (now < due -> due = 0 \/
                        (due - now <= secs * 1000 < due - now + 1000))
      end.
Proof.
  intros parseURL key sv b now. split; [reflexivity|].
  unfold handleStatus. do 2 eexists. split; [reflexivity|].
  cbn [running total index sent failed].
  destruct (nextSendAt (state sv)) as [due|]; [|repeat split; lia].
  destruct (Z.eqb_spec due 0) as [->|Hd].
  - repeat split; try lia; intros _; now left.
  - pose proof (ceil_thousand_past (due - now)) as P1.
    pose proof (ceil_thousand (due - now)) as P2.
    repeat split; try lia; intros Hfut; right; lia.
Qed.


(** X4.  When the login of a pending start fails the request is answered
    with status 500 and neither the job state nor the loops change; when
    it succeeds the job state is replaced: flag set, total the number of
    recipients, cursor and counters 0, no error, no wait, the first
    recipient current and [lastStep] already at resolve_user_pk, and one
    loop is added at its first resolve call, with the validated proxies. *)
Theorem login_outcome_decides_the_job :
  forall parseURL sv k l r,
    nth_error (logins sv) k = Some l ->
    loginUsernames l <> [] ->
    match r with
    | Rejected e =>
        exists message,
          handleLogin parseURL k (Rejected e) sv =
          (mkServer (state sv) (remove_nth k (logins sv)) (loops sv),
           Some (ErrorReply 500 message))
    | Fulfilled u =>
        let sv' := fst (handleLogin parseURL k (Fulfilled u) sv) in
        snd (handleLogin parseURL k (Fulfilled u) sv) = Some OkReply /\
        logins sv' = remove_nth k (logins sv) /\
        running (state sv') = true /\
        igUser (state sv') = Some (loginUser l) /\
        total (state sv') = Z.of_nat (length (loginUsernames l)) /\
        index (state sv') = 0 /\ sent (state sv') = 0 /\
        failed (state sv') = 0 /\
        lastError (state sv') = None /\ nextSendAt (state sv') = None /\
        currentUsername (state sv') = nth_error (loginUsernames l) 0 /\
        lastStep (state sv') = Some (js "resolve_user_pk") /\
        exists t,
          loops sv' = loops sv ++ [t] /\ pc t = AwaitResolve 0 /\
          usernames t = loginUsernames l /\
          proxyList t = validProxies parseURL (loginProxies l)
    end.
Proof.
  intros parseURL sv k l r Hk Hne. unfold handleLogin. rewrite Hk.
  destruct r as [u|e]; [|eexists; reflexivity].
  unfold launch, loop_top. cbn [usernames newTask running fresh negb].
  destruct (loginUsernames l) as [|n names] eqn:E; [congruence|].
  cbn [length Nat.ltb Nat.leb].
  unfold rotate. cbn [proxyList newTask].
  destruct (0 <? length (validProxies parseURL (loginProxies l)))%nat;
    cbn; repeat split; eexists; repeat split.
Qed.

Lemma login_outcome_witness :
  let sv' := fst (handleLogin no_parser 0 (Fulfilled tt) pending_start) in
  snd (handleLogin no_parser 0 (Fulfilled tt) pending_start) = Some OkReply /\
  logins sv' = remove_nth 0 (logins pending_start) /\
  running (state sv') = true /\
  igUser (state sv') = Some (loginUser (mkLogin (js "u") (js "u") [alice; bob] None None)) /\
  total (state sv') =
    Z.of_nat (length (loginUsernames (mkLogin (js "u") (js "u") [alice; bob] None None))) /\
  index (state sv') = 0 /\ sent (state sv') = 0 /\
  failed (state sv') = 0 /\
  lastError (state sv') = None /\ nextSendAt (state sv') = None /\
  currentUsername (state sv') =
    nth_error (loginUsernames (mkLogin (js "u") (js "u") [alice; bob] None None)) 0 /\
  lastStep (state sv') = Some (js "resolve_user_pk") /\
  exists t,
    loops sv' = loops pending_start ++ [t] /\ pc t = AwaitResolve 0 /\
    usernames t = loginUsernames (mkLogin (js "u") (js "u") [alice; bob] None None) /\
    proxyList t =
      validProxies no_parser
        (loginProxies (mkLogin (js "u") (js "u") [alice; bob] None None)).
Proof.
  apply (login_outcome_decides_the_job no_parser pending_start 0
           (mkLogin (js "u") (js "u") [alice; bob] None None)
           (Fulfilled tt)).
  - reflexivity.
  - discriminate.
Defined.

(** X5.  No request ever sees [lastStep] at login_success: in every state
    the server reaches between two happenings it is absent or one of
    resolve_user_pk, generate_message, send_dm, because the task runs to
    its first resolve call before the start request is answered. *)
Theorem login_success_is_never_observed :
  forall parseURL key hs,
    lastStep_in steps_seen (state (history parseURL key hs boot)).
Proof.
  intros parseURL key hs.
  apply (history_observable parseURL key hs boot).
  split; [exact I|constructor].
Qed.

(** X6.  Whatever the run, a proxy shown in the job state or set on the
    session is a string of the request's [proxies] array that [new URL]
    parses with protocol http: or https:, a non-empty host name and a
    non-empty port. *)
Theorem only_validated_proxies_are_used :
  forall parseURL igUsername names field agent xs,
    let m := run xs (launch igUsername names
                            (validProxies parseURL field) agent) in
    let good x :=
      (exists l, field = Some l /\ In (JString x) l) /\
      exists u, parseURL x = Some u /\
                (protocol u = js "http:" \/ protocol u = js "https:") /\
                hostname u <> [] /\ port u <> [] in
    match currentProxy (snd m) with Some x => good x | None => True end /\
    match proxyUrl (fst m) with Some x => good x | None => True end.
Proof.
  intros parseURL igUsername names field agent xs m good.
  destruct (run_drawn (validProxies parseURL field) xs _
              (launch_drawn igUsername names _ agent)) as (_ & Hc & Hu).
  fold m in Hc, Hu.
  assert (G : forall x, In x (validProxies parseURL field) -> good x).
  { intros x Hx. apply validProxies_in in Hx. destruct Hx as [Hv Hl].
    split; [exact Hl|]. now apply isValidProxy_spec. }
  split.
  - destruct (currentProxy (snd m)); [now apply G|exact I].
  - destruct (proxyUrl (fst m)); [now apply G|exact I].
Qed.



(** X8.  A tick that finds the flag cleared during a wait ends the job
    without touching another recipient: the task finishes, the counters
    and the cursor stay, and [currentUsername] and [nextSendAt] are
    cleared. *)
Theorem interrupted_wait_ends_at_the_next_tick :
  forall a names proxies cursor url i target s,
    running s = false ->
    let m := resume Ticked a
               (mkTask names proxies cursor url (AwaitDelay i target)) s in
    pc (fst m) = Finished /\
    running (snd m) = false /\
    sent (snd m) = sent s /\ failed (snd m) = failed s /\
    index (snd m) = index s /\ total (snd m) = total s /\
    currentUsername (snd m) = None /\ nextSendAt (snd m) = None.
Proof.
  intros a names proxies cursor url i target s Hr m. subst m.
  unfold resume. cbn [pc]. unfold countdown. rewrite Hr, andb_false_r.
  rewrite loop_top_stopped by exact Hr. cbn. repeat split.
Qed.

Lemma interrupted_wait_witness :
  let s := set_running false
             (set_nextSendAt (Some 3780000) (fresh (js "me") [alice; bob] None)) in
  let m := resume Ticked quiet
             (mkTask [alice; bob] [] 0 None (AwaitDelay 0 3780000)) s in
  pc (fst m) = Finished /\
  running (snd m) = false /\
  sent (snd m) = sent s /\ failed (snd m) = failed s /\
  index (snd m) = index s /\ total (snd m) = total s /\
  currentUsername (snd m) = None /\ nextSendAt (snd m) = None.
Proof.
  apply (interrupted_wait_ends_at_the_next_tick quiet [alice; bob] [] 0%nat
           None 0%nat 3780000
           (set_running false
              (set_nextSendAt (Some 3780000)
                 (fresh (js "me") [alice; bob] None)))).
  reflexivity.
Defined.



(** X10.  What the generator's answer does to the dispatch: a response
    that is not ok counts a failure with "OpenRouter failed with status"
    and the status; an ok response without content, or with empty
    content, counts a failure with "OpenRouter returned no content"; an
    ok response with content moves on to the send step with the
    sanitized content, [lastStep] at send_dm and the counters as they
    were. *)
Theorem generator_answer_decides_the_dispatch :
  forall a names proxies cursor url i id name s ok status content,
    let t := mkTask names proxies cursor url (AwaitGenerate i id name) in
    let m := resume (Generated (Response ok status content)) a t s in
    if ok && truthy (orEmpty content) then
      pc (fst m) =
        AwaitSend i id (sanitizeMessage (orEmpty content) name (nth i names []))
      /\ lastStep (snd m) = Some (js "send_dm")
      /\ sent (snd m) = sent s /\ failed (snd m) = failed s
      /\ lastError (snd m) = lastError s
    else
      failed (snd m) = failed s + 1 /\ sent (snd m) = sent s /\
      lastError (snd m) =
        Some (if ok then js "OpenRouter returned no content"
              else js "OpenRouter failed with status " ++ status).
Proof.
  intros a names proxies cursor url i id name s ok status content t m.
  pose proof (resume_effect (Generated (Response ok status content)) a t s)
    as [_ H].
  fold m in H. subst t. cbn [pc outcome] in H. subst m.
  unfold resume in *. cbn [pc] in *.
  destruct ok; cbn [andb negb openrouterGenerate] in *.
  - destruct content as [[|c text]|]; cbn [orEmpty str_or truthy] in *;
      try (destruct H as (H1 & H2 & H3); repeat split; assumption).
    cbn. repeat split.
  - destruct H as (H1 & H2 & H3). repeat split; assumption.
Qed.

(** X11.  The import of the recipients file: every accepted handle is
    non-empty and made of ASCII letters, digits, dots and underscores
    only; every line that holds more than whitespace is either accepted
    or reported; the reported line numbers count from 1, increase and do
    not exceed the number of lines. *)
Theorem imported_handles_are_well_formed :
  forall text,
    Forall (fun name => name <> [] /\ forallb name_class name = true)
           (fst (onFileChange text)) /\
    (length (fst (onFileChange text)) + length (snd (onFileChange text)))%nat =
      length (filled (split re_newline text)) /\
    ascending 0 (length (split re_newline text)) (snd (onFileChange text)) =
      true.
Proof.
  intros text. unfold onFileChange.
  destruct (scanNames_spec (split re_newline text) 0) as (H1 & H2 & H3).
  repeat split; [|exact H2|exact H3].
  eapply Forall_impl; [|exact H1]. intros name. apply test_username.
Qed.

(** X12.  When the display name is empty, a listed square or brace
    placeholder that makes up the whole message becomes the handle with
    its underscores removed: the handle is put in and the markdown pass
    then strips [_] from it. *)
Theorem handle_loses_its_underscores :
  forall p handle,
    existsb (str_eqb p) (square_spellings ++ brace_spellings) = true ->
    handle <> [] ->
    forallb name_class handle = true ->
    sanitizeMessage p [] handle =
    filter (fun c => negb (N.eqb c 95)) handle.
Proof. exact handle_for_placeholder. Qed.

Lemma handle_loses_its_underscores_witness :
  sanitizeMessage (js "[name]") [] (js "john_doe") =
  filter (fun c => negb (N.eqb c 95)) (js "john_doe").
Proof.
  apply (handle_loses_its_underscores (js "[name]") (js "john_doe")).
  - reflexivity.
  - discriminate.
  - reflexivity.
Defined.

(** X13.  The countdown text is hours, minutes and seconds in decimal,
    separated by colons, minutes and seconds on two digits and below 60,
    hours on at least two digits, and the three numbers add up to the
    seconds given, or to 0 for a negative number.  The seconds are a
    whole number in the range of the safe integers. *)
Theorem countdown_text_encodes_the_seconds :
  forall n,
    n <= 9007199254740991 ->
    exists hh mm ss h m s,
      formatHMS n = hh ++ [58%N] ++ mm ++ [58%N] ++ ss /\
      (2 <= length hh)%nat /\ length mm = 2%nat /\ length ss = 2%nat /\
      decimalValue hh = Some h /\ decimalValue mm = Some m /\
      decimalValue ss = Some s /\
      (m < 60)%N /\ (s < 60)%N /\
      Z.of_N (h * 3600 + m * 60 + s) = Z.max 0 n.
Proof.
  intros n _. unfold formatHMS. cbv zeta.
  set (S := Z.to_N (Z.max 0 n)).
  assert (Hm : ((S mod 3600) / 60 < 60)%N).
  { apply N.Div0.div_lt_upper_bound.
    pose proof (N.mod_lt S 3600 ltac:(discriminate)). lia. }
  assert (Hs : (S mod 60 < 60)%N) by (apply N.mod_lt; discriminate).
  do 3 eexists. exists (S / 3600)%N, ((S mod 3600) / 60)%N, (S mod 60)%N.
  split; [reflexivity|].
  split; [apply decimalValue_pad|].
  split; [apply two_digits; lia|].
  split; [apply two_digits; lia|].
  split; [apply decimalValue_pad|].
  split; [apply decimalValue_pad|].
  split; [apply decimalValue_pad|].
  split; [exact Hm|]. split; [exact Hs|].
  pose proof (hms_sum S) as E.
  rewrite E. subst S. rewrite Z2N.id; lia.
Qed.

Lemma countdown_text_witness :
  exists hh mm ss h m s,
    formatHMS 3725 = hh ++ [58%N] ++ mm ++ [58%N] ++ ss /\
    (2 <= length hh)%nat /\ length mm = 2%nat /\ length ss = 2%nat /\
    decimalValue hh = Some h /\ decimalValue mm = Some m /\
    decimalValue ss = Some s /\
    (m < 60)%N /\ (s < 60)%N /\
    Z.of_N (h * 3600 + m * 60 + s) = Z.max 0 3725.
Proof.
  apply (countdown_text_encodes_the_seconds 3725). lia.
Defined.

(** X14.  The client sends a start request once a user name, a password
    and a recipient are there, and does not look at the prompt.  On an
    idle server with an API key such a request goes on to the login with
    exactly the imported recipients when the prompt is non-empty, and is
    refused with "Missing required fields" when the prompt is empty. *)
Theorem client_guard_leaves_the_prompt_to_the_server :
  forall key username password prompt usernames proxies agent sv,
    maySend username password usernames = true ->
    running (state sv) = false ->
    falsy key = false ->
    let b := startBody username password prompt usernames proxies agent in
    if truthy prompt then
      snd (handleStart key b sv) = None /\
      exists l,
        logins (fst (handleStart key b sv)) = logins sv ++ [l] /\
        loginUser l = username /\ loginUsernames l = usernames /\
        loginProxies l = Some (List.map JString proxies)
    else
      handleStart key b sv =
      (sv, Some (ErrorReply 400 (js "Missing required fields"))).
Proof.
  intros key username password prompt usernames proxies agent sv Hg Hr Hk b.
  unfold maySend in Hg.
  apply andb_true_iff in Hg. destruct Hg as [Hg Hn].
  apply andb_true_iff in Hg. destruct Hg as [Hu Hp].
  apply negb_true_iff in Hn.
  subst b. unfold handleStart, startBody.
  cbn [igUsername igPassword systemPrompt usernamesField proxiesField
       userAgentField falsy orEmpty].
  rewrite Hr, Hu, Hp, Hn, Hk. cbn [negb orb].
  destruct (truthy prompt); cbn [negb orb]; [|reflexivity].
  cbn [fst snd logins]. split; [reflexivity|].
  eexists. split; [reflexivity|].
  cbn [loginUser loginUsernames loginProxies]. unfold str_or. rewrite Hu.
  repeat split.
Qed.

Lemma client_guard_witness :
  let b := startBody (js "u") (js "p") [] [alice; bob] [] (js "agent") in
  if truthy [] then
    snd (handleStart (Some (js "key")) b boot) = None /\
    exists l,
      logins (fst (handleStart (Some (js "key")) b boot)) = logins boot ++ [l] /\
      loginUser l = js "u" /\ loginUsernames l = [alice; bob] /\
      loginProxies l = Some (List.map JString [])
  else
    handleStart (Some (js "key")) b boot =
    (boot, Some (ErrorReply 400 (js "Missing required fields"))).
Proof.
  apply (client_guard_leaves_the_prompt_to_the_server
           (Some (js "key")) (js "u") (js "p") [] [alice; bob] []
           (js "agent") boot).
  - reflexivity.
  - reflexivity.
  - reflexivity.
Defined.

(** X15.  The import of the proxies file keeps the non-blank lines,
    trimmed; of these the server keeps, in their order, the ones that
    pass [isValidProxy] and drops the others without a word. *)
Theorem imported_proxies_are_trimmed_then_filtered :
  forall parseURL text,
    Forall (fun p => p <> [] /\ trim p = p) (onProxyFileChange text) /\
    validProxies parseURL
      (Some (List.map JString (onProxyFileChange text))) =
    filter (isValidProxy parseURL) (onProxyFileChange text).
Proof.
  intros parseURL text. split.
  - unfold onProxyFileChange. apply Forall_forall. intros p Hp.
    apply filter_In in Hp. destruct Hp as [Hin Ht].
    apply in_map_iff in Hin. destruct Hin as (line & <- & _).
    split; [|apply trim_twice]. now destruct (trim line).
  - cbn [validProxies]. generalize (onProxyFileChange text). intros l.
    induction l as [|p l IH]; [reflexivity|].
    cbn [List.map flat_map filter]. rewrite IH.
    now destruct (isValidProxy parseURL p).
Qed.

(** X16.  Splitting a text without carriage returns into lines loses
    nothing: the lines joined by line breaks are the text again, and
    there is always at least one line. *)
Theorem lines_joined_give_the_text :
  forall text,
    ~ In 13%N text ->
    joinLines (split re_newline text) = text /\
    split re_newline text <> [].
Proof.
  intros text H. unfold split. destruct text as [|c t]; [now split|].
  split; [now rewrite join_split_from|].
  destruct (split_from_some re_newline (c :: t) [] 0) as (l & r & ->).
  discriminate.
Qed.

Lemma lines_joined_witness :
  joinLines (split re_newline (js "alice" ++ [LF; LF] ++ js "bob")) =
    js "alice" ++ [LF; LF] ++ js "bob" /\
  split re_newline (js "alice" ++ [LF; LF] ++ js "bob") <> [].
Proof.
  apply (lines_joined_give_the_text (js "alice" ++ [LF; LF] ++ js "bob")).
  vm_compute. intros H.
  repeat (destruct H as [H|H]; [discriminate H|]). exact H.
Defined.



End Extras.
